(** * kingpin: the lexer and the Application driver

    A shallow embedding of [lexer.go], of [app.go], of the usage line of
    [usage.go] and of the package-level [Parse], and the properties of the
    tokenizer, of the token cursor, of [Application.init] and
    [Application.Parse], and of their callers.

    Go strings are byte sequences: they are modelled by [string] (a sequence
    of 8-bit [ascii] bytes).  A [for _, a := range s] loop over a string
    decodes UTF-8 and [string(a)] encodes a rune again; both are modelled
    below, after the Go language specification. *)

From Stdlib Require Import ZArith Ascii String List Lia Bool.
From stdpp Require Import base option list gmap strings.

Import ListNotations.
Open Scope string_scope.
Open Scope list_scope.

(** ** Bytes and runes *)

Module Utf8.

Open Scope Z_scope.

(** A rune is Go's [int32]; every rune produced here lies in
    [0 .. 0x10FFFF]. *)
Definition rune := Z.

(** The numeric value of a byte of a string. *)
Definition byte_val (b : ascii) : Z := Z.of_N (N_of_ascii b).

(** Go's conversion [byte(x)]: the low eight bits. *)
Definition to_byte (x : Z) : ascii := ascii_of_N (Z.to_N (x mod 256)).

Definition RuneError : rune := 0xFFFD.
Definition MaxRune : rune := 0x10FFFF.
Definition surrogateMin : rune := 0xD800.
Definition surrogateMax : rune := 0xDFFF.

(** Continuation bytes lie in [locb .. hicb]. *)
Definition locb : Z := 0x80.
Definition hicb : Z := 0xBF.

Definition between (lo hi x : Z) : bool := (lo <=? x) && (x <=? hi).

(** What the first byte of a sequence announces: the length of the
    sequence and the range the second byte must lie in (the table [first]
    with [acceptRanges] of the Go runtime). *)
Inductive lead :=
| LeadAscii
| LeadInvalid
| LeadMulti (size : nat) (lo hi : Z).

Definition first (b0 : Z) : lead :=
  if b0 <? 0x80 then LeadAscii
  else if b0 <? 0xC2 then LeadInvalid
  else if b0 <? 0xE0 then LeadMulti 2 locb hicb
  else if b0 =? 0xE0 then LeadMulti 3 0xA0 hicb
  else if b0 <? 0xED then LeadMulti 3 locb hicb
  else if b0 =? 0xED then LeadMulti 3 locb 0x9F
  else if b0 <? 0xF0 then LeadMulti 3 locb hicb
  else if b0 =? 0xF0 then LeadMulti 4 0x90 hicb
  else if b0 <? 0xF4 then LeadMulti 4 locb hicb
  else if b0 =? 0xF4 then LeadMulti 4 locb 0x8F
  else LeadInvalid.

(** [DecodeRuneInString]: the first rune of a non-empty string and its
    width in bytes.  An invalid or truncated sequence yields
    [(RuneError, 1)]. *)
Definition DecodeRuneInString (s : string) : rune * nat :=
  match s with
  | EmptyString => (RuneError, 0%nat)
  | String c0 s1 =>
      let s0 := byte_val c0 in
      match first s0 with
      | LeadAscii => (s0, 1%nat)
      | LeadInvalid => (RuneError, 1%nat)
      | LeadMulti sz lo hi =>
          match s1 with
          | EmptyString => (RuneError, 1%nat)
          | String c1 s2 =>
              let b1 := byte_val c1 in
              if negb (between lo hi b1) then (RuneError, 1%nat)
              else if (sz <=? 2)%nat then
                (Z.lor (Z.shiftl (Z.land s0 0x1F) 6) (Z.land b1 0x3F), 2%nat)
              else
                match s2 with
                | EmptyString => (RuneError, 1%nat)
                | String c2 s3 =>
                    let b2 := byte_val c2 in
                    if negb (between locb hicb b2) then (RuneError, 1%nat)
                    else if (sz <=? 3)%nat then
                      (Z.lor (Z.lor (Z.shiftl (Z.land s0 0x0F) 12)
                                    (Z.shiftl (Z.land b1 0x3F) 6))
                             (Z.land b2 0x3F), 3%nat)
                    else
                      match s3 with
                      | EmptyString => (RuneError, 1%nat)
                      | String c3 _ =>
                          let b3 := byte_val c3 in
                          if negb (between locb hicb b3) then (RuneError, 1%nat)
                          else
                            (Z.lor (Z.lor (Z.lor (Z.shiftl (Z.land s0 0x07) 18)
                                                 (Z.shiftl (Z.land b1 0x3F) 12))
                                          (Z.shiftl (Z.land b2 0x3F) 6))
                                   (Z.land b3 0x3F), 4%nat)
                      end
                end
          end
      end
  end.

(** The three- and four-byte forms of [EncodeRune]. *)
Definition encode3 (r : rune) : string :=
  String (to_byte (Z.lor 0xE0 (byte_val (to_byte (Z.shiftr r 12)))))
 (String (to_byte (Z.lor 0x80 (Z.land (byte_val (to_byte (Z.shiftr r 6))) 0x3F)))
 (String (to_byte (Z.lor 0x80 (Z.land (byte_val (to_byte r)) 0x3F)))
  EmptyString)).

Definition encode4 (r : rune) : string :=
  String (to_byte (Z.lor 0xF0 (byte_val (to_byte (Z.shiftr r 18)))))
 (String (to_byte (Z.lor 0x80 (Z.land (byte_val (to_byte (Z.shiftr r 12))) 0x3F)))
 (String (to_byte (Z.lor 0x80 (Z.land (byte_val (to_byte (Z.shiftr r 6))) 0x3F)))
 (String (to_byte (Z.lor 0x80 (Z.land (byte_val (to_byte r)) 0x3F)))
  EmptyString))).

(** The conversion [string(r)] of a rune: its UTF-8 encoding; a surrogate
    or a value outside [0 .. MaxRune] is converted as [RuneError]. *)
Definition string_of_rune (r : rune) : string :=
  if (0 <=? r) && (r <=? 0x7F) then String (to_byte r) EmptyString
  else if (0 <=? r) && (r <=? 0x7FF) then
    String (to_byte (Z.lor 0xC0 (byte_val (to_byte (Z.shiftr r 6)))))
   (String (to_byte (Z.lor 0x80 (Z.land (byte_val (to_byte r)) 0x3F)))
    EmptyString)
  else if (r <? 0) || (MaxRune <? r) || between surrogateMin surrogateMax r
  then encode3 RuneError
  else if r <=? 0xFFFF then encode3 r
  else encode4 r.

(** The runes a [range] loop over [s] yields, in order.  The loop decodes
    one rune at its index and advances by the rune's width; [skip] counts
    the bytes of the current rune that are still to be stepped over. *)
Fixpoint range_from (skip : nat) (s : string) : list rune :=
  match s with
  | EmptyString => []
  | String _ s' =>
      match skip with
      | S k => range_from k s'
      | O =>
          let (r, w) := DecodeRuneInString s in
          r :: range_from (Nat.pred w) s'
      end
  end.

Definition range_string (s : string) : list rune := range_from 0 s.

(** The string made of the characters [rs]: the conversion [string(rs)] of a
    rune slice. *)
Fixpoint string_of_runes (rs : list rune) : string :=
  match rs with
  | [] => EmptyString
  | r :: rest => string_of_rune r +:+ string_of_runes rest
  end.

(** The hyphen-minus character. *)
Definition dash : rune := 0x2D.

(** A Unicode scalar value: what a well-formed UTF-8 string encodes. *)
Definition ValidRune (r : rune) : Prop :=
  0 <= r <= MaxRune /\ ~ (surrogateMin <= r <= surrogateMax).

End Utf8.

(** ** lexer.go *)

Inductive TokenType := TokenShort | TokenLong | TokenArg | TokenEOF.

Record Token := mkToken { Typ : TokenType; Value : string }.

Definition TokenEOFMarker : Token := mkToken TokenEOF "".

Definition TokenType_eqb (a b : TokenType) : bool :=
  match a, b with
  | TokenShort, TokenShort | TokenLong, TokenLong
  | TokenArg, TokenArg | TokenEOF, TokenEOF => true
  | _, _ => false
  end.

Definition IsFlag (t : Token) : bool :=
  TokenType_eqb (Typ t) TokenShort || TokenType_eqb (Typ t) TokenLong.

Definition IsEOF (t : Token) : bool := TokenType_eqb (Typ t) TokenEOF.

Definition Token_String (t : Token) : string :=
  match Typ t with
  | TokenShort => "-" +:+ Value t
  | TokenLong => "--" +:+ Value t
  | TokenArg => Value t
  | TokenEOF => "<EOF>"
  end.

(** [Tokens] is a slice of tokens; as a token sequence, a list. *)
Definition Tokens := list Token.

(** [strings.Join]. *)
Fixpoint Join (elems : list string) (sep : string) : string :=
  match elems with
  | [] => ""
  | [e] => e
  | e :: rest => e +:+ sep +:+ Join rest sep
  end.

Definition Tokens_String (t : Tokens) : string :=
  "Tokens{" +:+ Join (map Token_String t) ", " +:+ "}".

Definition Next (t : Tokens) : Token * Tokens :=
  match t with
  | [] => (TokenEOFMarker, [])
  | tok :: rest => (tok, rest)
  end.

Definition Return (t : Tokens) (token : Token) : Tokens :=
  if TokenType_eqb (Typ token) TokenEOF then t else [token] ++ t.

Definition Peek (t : Tokens) : Token :=
  match t with
  | [] => TokenEOFMarker
  | tok :: _ => tok
  end.

(** [strings.HasPrefix]. *)
Definition HasPrefix (s p : string) : bool := String.prefix p s.

(** The slice expression [s[n:]]. *)
Fixpoint slice_from (n : nat) (s : string) : string :=
  match n, s with
  | O, _ => s
  | S k, String _ s' => slice_from k s'
  | S _, EmptyString => EmptyString
  end.

(** The slice expression [s[:n]]. *)
Fixpoint slice_to (n : nat) (s : string) : string :=
  match n, s with
  | O, _ => EmptyString
  | S k, String c s' => String c (slice_to k s')
  | S _, EmptyString => EmptyString
  end.

(** [strings.Index] for a one-byte separator: the index of its first
    occurrence, [None] for Go's [-1]. *)
Fixpoint Index (s : string) (sep : ascii) : option nat :=
  match s with
  | EmptyString => None
  | String c s' => if Ascii.eqb c sep then Some O else S <$> Index s' sep
  end.

(** [strings.SplitN(s, sep, 2)] for a one-byte separator: [s] cut at the
    first occurrence of [sep], or [s] alone when there is none. *)
Definition SplitN2 (s : string) (sep : ascii) : list string :=
  match Index s sep with
  | None => [s]
  | Some m => [slice_to m s; slice_from (m + 1) s]
  end.

(** The tokens one raw argument contributes. *)
Definition tokenize_arg (arg : string) : Tokens :=
  if HasPrefix arg "--" then
    let parts := SplitN2 (slice_from 2 arg) "=" in
    [mkToken TokenLong (nth 0 parts "")]
      ++ (if (length parts =? 2)%nat then [mkToken TokenArg (nth 1 parts "")] else [])
  else if HasPrefix arg "-" then
    map (fun a => mkToken TokenShort (Utf8.string_of_rune a))
        (Utf8.range_string (slice_from 1 arg))
  else
    [mkToken TokenArg arg].

Fixpoint Tokenize_from (tokens : Tokens) (args : list string) : Tokens :=
  match args with
  | [] => tokens
  | arg :: rest => Tokenize_from (tokens ++ tokenize_arg arg) rest
  end.

Definition Tokenize (args : list string) : Tokens := Tokenize_from [] args.


(** ** The clauses and groups of an Application *)

(** A Go [error] value, by its message; [option error] is a possibly nil
    error. *)
Definition error := string.

(** [type Dispatch func() error]: the hooks app.go installs, and those of
    the program using the library, by name. *)
Inductive Dispatch :=
| onFlagHelp
| onCommandHelp
| onVersion (version : string)
| userDispatch (id : nat).

(** A pointer to a clause: its address in the store of its group. *)
Abbreviation addr := nat.

(** Modelled from the spec: the value converters (section 6); the engine
    provides the boolean and the string ones. *)
Inductive Converter := boolValue | stringValue.

(** Modelled from the spec: the struct declarations of flags.go, args.go and
    cmd.go are not among the sources.  The fields are those of section 3,
    under the names usage.go and app.go use ([name], [help], [shorthand],
    [required], [value], [long], [flagOrder], [args], [commands],
    [commandOrder]); [flag_target] and [arg_target] are the bound-value
    slots. *)
Record FlagClause := mkFlag {
  flag_name : string;
  flag_help : string;
  shorthand : option string;
  flag_required : bool;
  flag_default : option string;
  flag_dispatch : option Dispatch;
  flag_value : option Converter;
  flag_target : option string }.

(** [long], [short] and [flagOrder] hold pointers to the same clauses:
    addresses into [flag_store]. *)
Record flagGroup := mkFlagGroup {
  flag_store : list FlagClause;
  long : gmap string addr;
  short : gmap string addr;
  flagOrder : list addr }.

Record ArgClause := mkArg {
  arg_name : string;
  arg_help : string;
  arg_required : bool;
  arg_variadic : bool;
  arg_dispatch : option Dispatch;
  arg_value : option Converter;
  arg_target : list string }.

Record argGroup := mkArgGroup { args : list ArgClause }.

Record CmdClause := mkCmd {
  cmd_name : string;
  cmd_help : string;
  cmd_dispatch : option Dispatch;
  cmd_flagGroup : flagGroup;
  cmd_argGroup : argGroup }.

(** [commands] and [commandOrder] hold pointers to the same clauses:
    addresses into [cmd_store]. *)
Record cmdGroup := mkCmdGroup {
  cmd_store : list CmdClause;
  commands : gmap string addr;
  commandOrder : list addr }.

Definition newFlagGroup : flagGroup := mkFlagGroup [] ∅ ∅ [].
Definition newArgGroup : argGroup := mkArgGroup [].
Definition newCmdGroup : cmdGroup := mkCmdGroup [] ∅ [].

Definition newCommand (name help : string) : CmdClause :=
  mkCmd name help None newFlagGroup newArgGroup.

(** Modelled from the spec: [have] of args.go and cmd.go, "declares
    top-level positional arguments" and "declares top-level commands". *)
Definition argGroup_have (a : argGroup) : bool := (0 <? length (args a))%nat.
Definition cmdGroup_have (c : cmdGroup) : bool := (0 <? size (commands c))%nat.

(** Where a flag group or an argument group lives: in the Application
    itself or in one of its commands. *)
Inductive scope := Root | InCmd (cmd : addr).

(** A pointer to a flag clause or to an argument clause. *)
Abbreviation flagref := (scope * nat)%type.
Abbreviation argref := (scope * nat)%type.

(** ** app.go *)

(** [commandHelp] points to the string that the [command] argument of the
    synthetic help command is bound to. *)
Record Application := mkApp {
  app_flagGroup : flagGroup;
  app_argGroup : argGroup;
  app_cmdGroup : cmdGroup;
  initialized : bool;
  commandHelp : option argref;
  Name : string;
  Help : string }.

Definition set_flagGroup (f : flagGroup) (a : Application) : Application :=
  mkApp f (app_argGroup a) (app_cmdGroup a) (initialized a) (commandHelp a)
        (Name a) (Help a).
Definition set_argGroup (g : argGroup) (a : Application) : Application :=
  mkApp (app_flagGroup a) g (app_cmdGroup a) (initialized a) (commandHelp a)
        (Name a) (Help a).
Definition set_cmdGroup (c : cmdGroup) (a : Application) : Application :=
  mkApp (app_flagGroup a) (app_argGroup a) c (initialized a) (commandHelp a)
        (Name a) (Help a).
Definition set_initialized (b : bool) (a : Application) : Application :=
  mkApp (app_flagGroup a) (app_argGroup a) (app_cmdGroup a) b (commandHelp a)
        (Name a) (Help a).
Definition set_commandHelp (p : option argref) (a : Application) : Application :=
  mkApp (app_flagGroup a) (app_argGroup a) (app_cmdGroup a) (initialized a) p
        (Name a) (Help a).

(** *** Methods as state transformers

    A method of [*Application] either returns a result and leaves the
    Application in a new state, or ends the process ([os.Exit], which the
    help and version hooks call), or panics. *)
Inductive outcome (A : Type) :=
| Returns (result : A) (a : Application)
| Exits (status : Z)
| Panics.
Arguments Returns {A} result a.
Arguments Exits {A} status.
Arguments Panics {A}.

Definition M (A : Type) : Type := Application → outcome A.

#[global] Instance M_ret : MRet M := λ A x a, Returns x a.
#[global] Instance M_bind : MBind M := λ A B f m a,
  match m a with
  | Returns x a' => f x a'
  | Exits status => Exits status
  | Panics => Panics
  end.

Definition get : M Application := λ a, Returns a a.
Definition modify (f : Application → Application) : M unit := λ a, Returns tt (f a).
Definition panic {A} : M A := λ _, Panics.
Definition exit {A} (status : Z) : M A := λ _, Exits status.

(** The state a builder call leaves. *)
Definition exec {A} (m : M A) (a : Application) : Application :=
  match m a with
  | Returns _ a' => a'
  | _ => a
  end.

(** *** Reading and writing through pointers *)

Definition get_cmd (cmd : addr) : M CmdClause :=
  a ← get;
  match cmd_store (app_cmdGroup a) !! cmd with
  | None => panic
  | Some clause => mret clause
  end.

Definition update_cmd (cmd : addr) (f : CmdClause → CmdClause) : M unit :=
  clause ← get_cmd cmd;
  modify (λ a,
    let c := app_cmdGroup a in
    set_cmdGroup (mkCmdGroup (<[cmd := f clause]> (cmd_store c))
                             (commands c) (commandOrder c)) a).

Definition get_flags (s : scope) : M flagGroup :=
  match s with
  | Root => a ← get; mret (app_flagGroup a)
  | InCmd cmd => clause ← get_cmd cmd; mret (cmd_flagGroup clause)
  end.

Definition update_flags (s : scope) (f : flagGroup → flagGroup) : M unit :=
  match s with
  | Root => modify (λ a, set_flagGroup (f (app_flagGroup a)) a)
  | InCmd cmd =>
      update_cmd cmd (λ c,
        mkCmd (cmd_name c) (cmd_help c) (cmd_dispatch c) (f (cmd_flagGroup c))
              (cmd_argGroup c))
  end.

Definition get_args (s : scope) : M (list ArgClause) :=
  match s with
  | Root => a ← get; mret (args (app_argGroup a))
  | InCmd cmd => clause ← get_cmd cmd; mret (args (cmd_argGroup clause))
  end.

Definition update_args (s : scope) (f : list ArgClause → list ArgClause) : M unit :=
  match s with
  | Root => modify (λ a, set_argGroup (mkArgGroup (f (args (app_argGroup a)))) a)
  | InCmd cmd =>
      update_cmd cmd (λ c,
        mkCmd (cmd_name c) (cmd_help c) (cmd_dispatch c) (cmd_flagGroup c)
              (mkArgGroup (f (args (cmd_argGroup c)))))
  end.

Definition update_flag (ref : flagref) (f : FlagClause → FlagClause) : M unit :=
  update_flags ref.1 (λ g,
    mkFlagGroup (alter f ref.2 (flag_store g)) (long g) (short g) (flagOrder g)).

Definition update_arg (ref : argref) (f : ArgClause → ArgClause) : M unit :=
  update_args ref.1 (alter f ref.2).

(** *** The builder

    Modelled from the spec: the builder methods of flags.go, args.go and
    cmd.go.  [Command] enters a new clause in the name map and appends it to
    the insertion-ordered sequence (section 3, Command Group); [Arg] appends
    a clause to the ordered sequence of its group (Argument Group); [Flag]
    enters a clause under its long name and appends it to the ordered
    sequence (Flag Group); the other methods set one field of the clause and
    return the clause, and [String] and [Bool] set the converter and return
    the pointer to the bound value. *)
Definition Command (name help : string) : M addr :=
  a ← get;
  let c := app_cmdGroup a in
  let cmd := length (cmd_store c) in
  modify (set_cmdGroup
            (mkCmdGroup (cmd_store c ++ [newCommand name help])
                        (<[name := cmd]> (commands c))
                        (commandOrder c ++ [cmd])));;
  mret cmd.

Definition Arg (s : scope) (name help : string) : M argref :=
  l ← get_args s;
  update_args s (λ l, l ++ [mkArg name help false false None None []]);;
  mret (s, length l).

Definition arg_Required (ref : argref) : M argref :=
  update_arg ref (λ c, mkArg (arg_name c) (arg_help c) true (arg_variadic c)
                             (arg_dispatch c) (arg_value c) (arg_target c));;
  mret ref.

Definition arg_Dispatch (d : Dispatch) (ref : argref) : M argref :=
  update_arg ref (λ c, mkArg (arg_name c) (arg_help c) (arg_required c)
                             (arg_variadic c) (Some d) (arg_value c) (arg_target c));;
  mret ref.

Definition arg_String (ref : argref) : M argref :=
  update_arg ref (λ c, mkArg (arg_name c) (arg_help c) (arg_required c)
                             (arg_variadic c) (arg_dispatch c) (Some stringValue)
                             (arg_target c));;
  mret ref.

Definition Flag (s : scope) (name help : string) : M flagref :=
  g ← get_flags s;
  let p := length (flag_store g) in
  update_flags s (λ g,
    mkFlagGroup (flag_store g ++ [mkFlag name help None false None None None None])
                (<[name := p]> (long g)) (short g) (flagOrder g ++ [p]));;
  mret (s, p).

Definition flag_Short (c : string) (ref : flagref) : M flagref :=
  update_flag ref (λ f, mkFlag (flag_name f) (flag_help f) (Some c) (flag_required f)
                               (flag_default f) (flag_dispatch f) (flag_value f)
                               (flag_target f));;
  update_flags ref.1 (λ g,
    mkFlagGroup (flag_store g) (long g) (<[c := ref.2]> (short g)) (flagOrder g));;
  mret ref.

Definition flag_Required (ref : flagref) : M flagref :=
  update_flag ref (λ f, mkFlag (flag_name f) (flag_help f) (shorthand f) true
                               (flag_default f) (flag_dispatch f) (flag_value f)
                               (flag_target f));;
  mret ref.

Definition flag_Default (v : string) (ref : flagref) : M flagref :=
  update_flag ref (λ f, mkFlag (flag_name f) (flag_help f) (shorthand f)
                               (flag_required f) (Some v) (flag_dispatch f)
                               (flag_value f) (flag_target f));;
  mret ref.

Definition flag_Dispatch (d : Dispatch) (ref : flagref) : M flagref :=
  update_flag ref (λ f, mkFlag (flag_name f) (flag_help f) (shorthand f)
                               (flag_required f) (flag_default f) (Some d)
                               (flag_value f) (flag_target f));;
  mret ref.

Definition flag_convert (v : Converter) (ref : flagref) : M flagref :=
  update_flag ref (λ f, mkFlag (flag_name f) (flag_help f) (shorthand f)
                               (flag_required f) (flag_default f) (flag_dispatch f)
                               (Some v) (flag_target f));;
  mret ref.

Definition flag_Bool : flagref → M flagref := flag_convert boolValue.
Definition flag_String : flagref → M flagref := flag_convert stringValue.

(** [New], lines 52-62. *)
Definition New (name help : string) : Application :=
  exec (f ← Flag Root "help" "Show help.";
        f ← flag_Dispatch onFlagHelp f;
        flag_Bool f)
       (mkApp newFlagGroup newArgGroup newCmdGroup false None name help).

(** [Version], lines 93-100. *)
Definition Version (version : string) : M unit :=
  f ← Flag Root "version" "Show application version.";
  f ← flag_Dispatch (onVersion version) f;
  flag_Bool f;;
  mret tt.

(** [append(s[l:], s[:l]...)]. *)
Definition rotate_from {A} (l : nat) (s : list A) : list A := drop l s ++ take l s.

(** Lines 111-115 of [init]: the synthetic help command, made first in
    order.  A slice expression with a negative bound panics. *)
Definition install_help : M unit :=
  cmd ← Command "help" "Show help for a command.";
  arg ← Arg (InCmd cmd) "command" "Command name.";
  arg ← arg_Required arg;
  arg ← arg_Dispatch onCommandHelp arg;
  target ← arg_String arg;
  modify (set_commandHelp (Some target));;
  a ← get;
  let c := app_cmdGroup a in
  match length (commandOrder c) with
  | O => panic
  | S l =>
      modify (set_cmdGroup
                (mkCmdGroup (cmd_store c) (commands c)
                            (rotate_from l (commandOrder c))))
  end.

(** The synthetic help command as lines 111-112 build it, and the
    Application as lines 111-115 leave it: the closed forms of
    [install_help]. *)
Definition help_command : CmdClause :=
  mkCmd "help" "Show help for a command." None newFlagGroup
        (mkArgGroup [mkArg "command" "Command name." true false
                           (Some onCommandHelp) (Some stringValue) []]).

Definition with_help (a : Application) : Application :=
  let c := app_cmdGroup a in
  let cmd := length (cmd_store c) in
  set_cmdGroup (mkCmdGroup (cmd_store c ++ [help_command])
                           (<["help" := cmd]> (commands c))
                           (cmd :: commandOrder c))
               (set_commandHelp (Some (InCmd cmd, 0%nat)) a).
(** *** [init], [parse] and [Parse]

    flags.go, args.go and cmd.go are not among the sources: what their
    [init] and [parse] methods do is left open.  Everything below holds for
    all of them. *)
Section Driver.

(** Modelled from the spec: the initializers of the groups and of a command
    clause validate the declared shape (sections 3 and 4.5) and report the
    first failure. *)
Variable flagGroup_init : flagGroup → option error.
Variable cmdGroup_init : cmdGroup → option error.
Variable argGroup_init : argGroup → option error.
Variable CmdClause_init : CmdClause → option error.

(** The order in which [range] visits the entries of the [commands] map;
    Go leaves it unspecified. *)
Variable range_commands : gmap string addr → list (string * addr).

(** [flagGroup.parse], [argGroup.parse] and [cmdGroup.parse] on the root
    groups.  They bind values and run dispatch hooks, which may reach the
    whole Application and may end the process. *)
Variable flagGroup_parse : Tokens → bool → M (Tokens * option error).
Variable argGroup_parse : Tokens → M (Tokens * option error).
Variable cmdGroup_parse : Tokens → M (list string * Tokens * option error).

(** Lines 127-131: [cmd.init()] for each command of the map, up to the
    first error. *)
Fixpoint init_commands (entries : list (string * addr)) : M (option error) :=
  match entries with
  | [] => mret None
  | (_, cmd) :: rest =>
      a ← get;
      match cmd_store (app_cmdGroup a) !! cmd with
      | None => panic
      | Some clause =>
          match CmdClause_init clause with
          | Some err => mret (Some err)
          | None => init_commands rest
          end
      end
  end.

Definition init : M (option error) :=
  a ← get;
  if initialized a then mret None
  else if cmdGroup_have (app_cmdGroup a) && argGroup_have (app_argGroup a) then
    mret (Some "can't mix top-level Arg()s with Command()s")
  else
    (if (0 <? size (commands (app_cmdGroup a)))%nat then install_help else mret tt);;
    a ← get;
    match flagGroup_init (app_flagGroup a) with
    | Some err => mret (Some err)
    | None =>
    match cmdGroup_init (app_cmdGroup a) with
    | Some err => mret (Some err)
    | None =>
    match argGroup_init (app_argGroup a) with
    | Some err => mret (Some err)
    | None =>
        err ← init_commands (range_commands (commands (app_cmdGroup a)));
        match err with
        | Some err => mret (Some err)
        | None => modify (set_initialized true);; mret None
        end
    end end end.

Definition parse (tokens : Tokens) : M (Tokens * string * option error) :=
  let runHelp := String.eqb (Value (Peek tokens)) "help" in
  '(tokens, err) ← flagGroup_parse tokens runHelp;
  match err with
  | Some _ => mret (tokens, "", err)
  | None =>
      a ← get;
      if argGroup_have (app_argGroup a) then
        '(tokens, err) ← argGroup_parse tokens;
        mret (tokens, Join [] " ", err)
      else if cmdGroup_have (app_cmdGroup a) then
        '(selected, tokens, err) ← cmdGroup_parse tokens;
        mret (tokens, Join selected " ", err)
      else mret (tokens, Join [] " ", None)
  end.

Definition Parse (args : list string) : M (string * option error) :=
  err ← init;
  match err with
  | Some _ => mret ("", err)
  | None =>
      let tokens := Tokenize args in
      '(tokens, command, err) ← parse tokens;
      match err with
      | Some _ => mret ("", err)
      | None =>
          if (length tokens =? 1)%nat then
            mret ("", Some ("unexpected argument '" +:+ Tokens_String tokens +:+ "'"))
          else if (0 <? length tokens)%nat then
            mret ("", Some ("unexpected arguments '" +:+ Tokens_String tokens +:+ "'"))
          else mret (command, err)
      end
  end.

(** *** The package-level [Parse]

    [Parse] of the package works on the default Application [CommandLine],
    here the state, with [os.Args[1:]] as arguments.  [Fatalf] prints and
    ends the process with status 1; [Usage] prints.  What is printed is not
    modelled. *)
Definition Fatalf {A} : M A := exit 1.

Definition CommandLine_Parse (argv : list string) : M string :=
  '(selected, err) ← Parse argv;
  match err with
  | Some _ => Fatalf
  | None =>
      a ← get;
      if String.eqb selected "" && (0 <? size (commands (app_cmdGroup a)))%nat
      then exit 0
      else mret selected
  end.

End Driver.

(** ** usage.go: the usage line *)

Section Usage.

(** [formatPlaceHolder] of flags.go is not among the sources. *)
Variable formatPlaceHolder : FlagClause → string.

(** [fb, ok := flag.value.(boolFlag)] with [ok && fb.IsBoolFlag()]. *)
Definition IsBoolFlag (flag : FlagClause) : bool :=
  match flag_value flag with
  | Some boolValue => true
  | _ => false
  end.

(** The clauses [range f.flagOrder] visits. *)
Definition flags_in_order (f : flagGroup) : list FlagClause :=
  omap (λ p, flag_store f !! p) (flagOrder f).

(** The loop of [gatherFlagSummary], lines 93-102. *)
Fixpoint summary_loop (flags : list FlagClause) (out : list string) : list string :=
  match flags with
  | [] => out
  | flag :: rest =>
      if flag_required flag then
        if IsBoolFlag flag then
          summary_loop rest (out ++ ["--" +:+ flag_name flag])
        else
          summary_loop rest
            (out ++ ["--" +:+ flag_name flag +:+ "=" +:+ formatPlaceHolder flag])
      else summary_loop rest out
  end.

Definition gatherFlagSummary (f : flagGroup) : list string :=
  let out := summary_loop (flags_in_order f) [] in
  if negb (size (long f) =? length out)%nat then out ++ ["[<flags>]"] else out.

(** [strings.Repeat]. *)
Fixpoint Repeat (s : string) (count : nat) : string :=
  match count with
  | O => ""
  | S n => s +:+ Repeat s n
  end.

(** The loop of [formatArgsAndFlags], lines 155-162. *)
Fixpoint args_loop (l : list ArgClause) (s : list string) (depth : nat)
  : list string * nat :=
  match l with
  | [] => (s, depth)
  | arg :: rest =>
      let h := "<" +:+ arg_name arg +:+ ">" in
      if negb (arg_required arg) then args_loop rest (s ++ ["[" +:+ h]) (S depth)
      else args_loop rest (s ++ [h]) depth
  end.

(** [formatArgsAndFlags]; [None] stands for the panic of an index out of
    range at line 163. *)
Definition formatArgsAndFlags (name : string) (a : argGroup) (flags : flagGroup)
  : option string :=
  let s := [name] ++ gatherFlagSummary flags in
  let '(s, depth) := args_loop (args a) s 0 in
  let i := (length s - 1)%nat in
  match s !! i with
  | None => None
  | Some last => Some (Join (<[i := last +:+ Repeat "]" depth]> s) " ")
  end.

End Usage.

(** ** The hooks of app.go *)

Section Resolution.

(** What the hooks of the program using the library do. *)
Variable user_hook : nat → M (option error).

(** The string a pointer returned by [String] points to. *)
Definition deref (ref : argref) : M string :=
  l ← get_args ref.1;
  match l !! ref.2 with
  | None => panic
  | Some arg => mret (default "" (head (arg_target arg)))
  end.

(** [onFlagHelp] (lines 64-68), [onCommandHelp] (lines 136-140, with
    [CommandUsage] of usage.go, which ends the process with status 1 through
    [Fatalf] when the command is unknown) and the hook of [Version] (lines
    94-98).  What they print is not modelled. *)
Definition run_dispatch (d : Dispatch) : M (option error) :=
  match d with
  | onFlagHelp => exit 0
  | onCommandHelp =>
      a ← get;
      match commandHelp a with
      | None => panic
      | Some ref =>
          command ← deref ref;
          match commands (app_cmdGroup a) !! command with
          | None => exit 1
          | Some _ => exit 0
          end
      end
  | onVersion _ => exit 0
  | userDispatch id => user_hook id
  end.

Definition dispatch (d : option Dispatch) : M (option error) :=
  match d with
  | None => mret None
  | Some d => run_dispatch d
  end.

(** ** The resolution of the groups

    Modelled from the spec: [parse] and [init] of flags.go, args.go and
    cmd.go, after sections 4.2, 4.3, 4.4 and 8.  They serve as one instance
    of the collaborators of [init] and [Parse]. *)

Definition find_flag (g : flagGroup) (tok : Token) : option addr :=
  match Typ tok with
  | TokenLong => long g !! Value tok
  | TokenShort => short g !! Value tok
  | _ => None
  end.

(** Binding a flag: the value is stored, then the hook of the clause runs. *)
Definition bind_flag (s : scope) (p : addr) (v : string) : M (option error) :=
  update_flag (s, p) (λ f,
    mkFlag (flag_name f) (flag_help f) (shorthand f) (flag_required f)
           (flag_default f) (flag_dispatch f) (flag_value f) (Some v));;
  g ← get_flags s;
  match flag_store g !! p with
  | None => panic
  | Some f => dispatch (flag_dispatch f)
  end.

(** Section 4.2, the scan: flag tokens are consumed while they stand at the
    front; a boolean flag takes no token, any other flag takes the next
    one, of whatever kind. *)
Fixpoint flag_scan (s : scope) (tokens : Tokens) {struct tokens}
  : M (Tokens * option error) :=
  match tokens with
  | [] => mret ([], None)
  | tok :: rest =>
      if IsFlag tok then
        g ← get_flags s;
        match find_flag g tok ≫= λ p, pair p <$> flag_store g !! p with
        | None => mret (rest, Some ("unknown flag '" +:+ Token_String tok +:+ "'"))
        | Some (p, f) =>
            match flag_value f with
            | Some boolValue =>
                err ← bind_flag s p "true";
                match err with
                | Some _ => mret (rest, err)
                | None => flag_scan s rest
                end
            | _ =>
                match rest with
                | [] =>
                    mret ([], Some ("expected argument for flag '"
                                      +:+ Token_String tok +:+ "'"))
                | vtok :: rest' =>
                    if IsEOF vtok then
                      mret (rest', Some ("expected argument for flag '"
                                           +:+ Token_String tok +:+ "'"))
                    else
                      err ← bind_flag s p (Token_String vtok);
                      match err with
                      | Some _ => mret (rest', err)
                      | None => flag_scan s rest'
                      end
                end
            end
        end
      else mret (tokens, None)
  end.

(** The first required flag, in declaration order, that is not bound. *)
Definition missing_flag (g : flagGroup) : option error :=
  head (omap (λ p,
          f ← flag_store g !! p;
          if flag_required f && negb (bool_decide (is_Some (flag_target f)))
          then Some ("required flag --" +:+ flag_name f +:+ " not provided")
          else None)
        (flagOrder g)).

(** A flag that was not supplied is bound to its default. *)
Definition with_default (f : FlagClause) : FlagClause :=
  match flag_target f with
  | Some _ => f
  | None => mkFlag (flag_name f) (flag_help f) (shorthand f) (flag_required f)
                   (flag_default f) (flag_dispatch f) (flag_value f) (flag_default f)
  end.

Definition flagGroup_parse_at (s : scope) (tokens : Tokens) (helpRequested : bool)
  : M (Tokens * option error) :=
  '(tokens, err) ← flag_scan s tokens;
  match err with
  | Some _ => mret (tokens, err)
  | None =>
      g ← get_flags s;
      match (if helpRequested then None else missing_flag g) with
      | Some err => mret (tokens, Some err)
      | None =>
          update_flags s (λ g,
            mkFlagGroup (with_default <$> flag_store g) (long g) (short g)
                        (flagOrder g));;
          mret (tokens, None)
      end
  end.

(** Binding an argument: the values are stored, then the hook runs. *)
Definition bind_arg (ref : argref) (d : option Dispatch) (vs : list string)
  : M (option error) :=
  update_arg ref (λ c,
    mkArg (arg_name c) (arg_help c) (arg_required c) (arg_variadic c)
          (arg_dispatch c) (arg_value c) vs);;
  dispatch d.

(** Section 4.3: the declared arguments take one token each, in order; a
    variadic last argument takes all that remain. *)
Fixpoint arg_scan (s : scope) (i : nat) (clauses : list ArgClause) (tokens : Tokens)
  : M (Tokens * option error) :=
  match clauses with
  | [] => mret (tokens, None)
  | c :: later =>
      if arg_variadic c && bool_decide (later = []) then
        err ← bind_arg (s, i) (arg_dispatch c) (Token_String <$> tokens);
        mret ([], err)
      else
        match tokens with
        | [] =>
            if arg_required c then
              mret ([], Some ("required argument '" +:+ arg_name c +:+ "' not provided"))
            else mret ([], None)
        | tok :: rest =>
            err ← bind_arg (s, i) (arg_dispatch c) [Token_String tok];
            match err with
            | Some _ => mret (rest, err)
            | None => arg_scan s (S i) later rest
            end
        end
  end.

Definition argGroup_parse_at (s : scope) (tokens : Tokens) : M (Tokens * option error) :=
  clauses ← get_args s;
  arg_scan s 0 clauses tokens.

(** Section 4.4: the next token names the command; its flags, then its
    arguments are resolved, then its hook runs. *)
Definition cmdGroup_parse_root (tokens : Tokens)
  : M (list string * Tokens * option error) :=
  match tokens with
  | [] => mret ([], [], Some "expected command")
  | tok :: rest =>
      if negb (TokenType_eqb (Typ tok) TokenArg) then
        mret ([], tokens, Some "expected command")
      else
        a ← get;
        match commands (app_cmdGroup a) !! Value tok with
        | None => mret ([], rest, Some ("unknown command '" +:+ Value tok +:+ "'"))
        | Some cmd =>
            '(rest, err) ← flagGroup_parse_at (InCmd cmd) rest false;
            match err with
            | Some _ => mret ([], rest, err)
            | None =>
                '(rest, err) ← argGroup_parse_at (InCmd cmd) rest;
                match err with
                | Some _ => mret ([], rest, err)
                | None =>
                    clause ← get_cmd cmd;
                    err ← dispatch (cmd_dispatch clause);
                    mret ([Value tok], rest, err)
                end
            end
        end
  end.

End Resolution.

(** The shape invariants of section 3 that section 8 has fail at
    initialization: required arguments before optional ones, and a variadic
    argument last. *)
Fixpoint check_args (optional_seen : bool) (l : list ArgClause) : option error :=
  match l with
  | [] => None
  | c :: later =>
      if arg_required c && optional_seen then
        Some ("required argument '" +:+ arg_name c +:+ "' after an optional one")
      else if arg_variadic c && negb (bool_decide (later = [])) then
        Some ("variadic argument '" +:+ arg_name c +:+ "' is not the last")
      else check_args (optional_seen || negb (arg_required c)) later
  end.

Definition argGroup_init_spec (g : argGroup) : option error := check_args false (args g).
Definition flagGroup_init_spec (g : flagGroup) : option error := None.
Definition cmdGroup_init_spec (g : cmdGroup) : option error := None.
Definition CmdClause_init_spec (c : CmdClause) : option error :=
  match flagGroup_init_spec (cmd_flagGroup c) with
  | Some err => Some err
  | None => argGroup_init_spec (cmd_argGroup c)
  end.

(** The program has no hooks of its own. *)
Definition no_hooks : nat → M (option error) := λ _, mret None.

(** [init] and [Parse] with these collaborators. *)
Definition kingpin_init : M (option error) :=
  init flagGroup_init_spec cmdGroup_init_spec argGroup_init_spec CmdClause_init_spec
       map_to_list.

Definition kingpin_parse : Tokens → M (Tokens * string * option error) :=
  parse (flagGroup_parse_at no_hooks Root) (argGroup_parse_at no_hooks Root)
        (cmdGroup_parse_root no_hooks).

Definition kingpin_Parse : list string → M (string * option error) :=
  Parse flagGroup_init_spec cmdGroup_init_spec argGroup_init_spec CmdClause_init_spec
        map_to_list
        (flagGroup_parse_at no_hooks Root) (argGroup_parse_at no_hooks Root)
        (cmdGroup_parse_root no_hooks).

(** *** Example applications *)

(** The application of the package comment of app.go and of scenario 3:
    [register <nick>] and [post --channel|-a <channel>]. *)
Definition chat : Application :=
  exec (register ← Command "register" "Register a new user.";
        nick ← Arg (InCmd register) "nick" "nickname for user";
        nick ← arg_Required nick;
        arg_String nick;;
        post ← Command "post" "Post a message to a channel.";
        channel ← Flag (InCmd post) "channel" "channel to post to";
        channel ← flag_Short "a" channel;
        channel ← flag_Required channel;
        flag_String channel)
       (New "chat" "").

(** Scenario 1: a required flag [--name] and a required argument [nick]. *)
Definition greeter : Application :=
  exec (name ← Flag Root "name" "name of user";
        name ← flag_Required name;
        flag_String name;;
        nick ← Arg Root "nick" "nickname for user";
        nick ← arg_Required nick;
        arg_String nick)
       (New "greeter" "").

(** An application that declares both a top-level argument and a command. *)
Definition mixed : Application :=
  exec (Command "run" "Run.";;
        file ← Arg Root "file" "A file.";
        arg_String file)
       (New "mixed" "").

(** Scenario 3: [post -a general hello]. *)
Definition scenario3 : list string := ["post"; "-a"; "general"; "hello"].

(** [chat] after [init], and after the resolution of scenario 3. *)
Definition chat_ready : Application := exec kingpin_init chat.
Definition chat_resolved : Application :=
  exec (kingpin_parse (Tokenize scenario3)) chat_ready.

(** A command whose required argument follows an optional one: the
    initialization of the command fails. *)
Definition broken : Application :=
  exec (run ← Command "run" "Run.";
        a ← Arg (InCmd run) "first" "Optional.";
        arg_String a;;
        b ← Arg (InCmd run) "second" "Required.";
        b ← arg_Required b;
        arg_String b)
       (New "broken" "").

Definition kingpin_CommandLine_Parse : list string → M string :=
  CommandLine_Parse
        flagGroup_init_spec cmdGroup_init_spec argGroup_init_spec CmdClause_init_spec
        map_to_list
        (flagGroup_parse_at no_hooks Root) (argGroup_parse_at no_hooks Root)
        (cmdGroup_parse_root no_hooks).

(** [chat] after [post -a general], and [broken] after each of two calls of
    [init]. *)
Definition chat_posted : Application :=
  exec (kingpin_Parse ["post"; "-a"; "general"]) chat.
Definition broken_once : Application := exec kingpin_init broken.
Definition broken_twice : Application := exec kingpin_init broken_once.

(** * Properties *)

(** ** UTF-8: decoding undoes encoding *)

Module Utf8Facts.
Import Utf8.
Open Scope Z_scope.

Lemma land_0x3F x : Z.land x 0x3F = x mod 64.
Proof. exact (Z.land_ones x 6 ltac:(lia)). Qed.
Lemma land_0x1F x : Z.land x 0x1F = x mod 32.
Proof. exact (Z.land_ones x 5 ltac:(lia)). Qed.
Lemma land_0x0F x : Z.land x 0x0F = x mod 16.
Proof. exact (Z.land_ones x 4 ltac:(lia)). Qed.
Lemma land_0x07 x : Z.land x 0x07 = x mod 8.
Proof. exact (Z.land_ones x 3 ltac:(lia)). Qed.
Lemma shiftr_6 x : Z.shiftr x 6 = x / 64.
Proof. exact (Z.shiftr_div_pow2 x 6 ltac:(lia)). Qed.
Lemma shiftr_12 x : Z.shiftr x 12 = x / 4096.
Proof. exact (Z.shiftr_div_pow2 x 12 ltac:(lia)). Qed.
Lemma shiftr_18 x : Z.shiftr x 18 = x / 262144.
Proof. exact (Z.shiftr_div_pow2 x 18 ltac:(lia)). Qed.
Lemma shiftl_6 x : Z.shiftl x 6 = x * 64.
Proof. exact (Z.shiftl_mul_pow2 x 6 ltac:(lia)). Qed.
Lemma shiftl_12 x : Z.shiftl x 12 = x * 4096.
Proof. exact (Z.shiftl_mul_pow2 x 12 ltac:(lia)). Qed.
Lemma shiftl_18 x : Z.shiftl x 18 = x * 262144.
Proof. exact (Z.shiftl_mul_pow2 x 18 ltac:(lia)). Qed.

Lemma lor_disjoint k hi lo :
  0 <= k -> hi mod 2 ^ k = 0 -> 0 <= lo < 2 ^ k -> Z.lor hi lo = hi + lo.
Proof.
  intros Hk Hhi Hlo.
  assert (Hland : Z.land hi lo = 0).
  { apply Z.bits_inj'. intros n Hn. rewrite Z.land_spec, Z.bits_0.
    destruct (Z.lt_ge_cases n k) as [Hlt | Hge].
    - replace hi with (hi / 2 ^ k * 2 ^ k).
      + rewrite Z.mul_pow2_bits_low by lia. reflexivity.
      + pose proof (Z.div_mod hi (2 ^ k)). lia.
    - rewrite <- (Z.mod_small lo (2 ^ k)) by lia.
      rewrite Z.mod_pow2_bits_high by lia. apply andb_false_r. }
  by rewrite (Z.add_nocarry_lxor hi lo Hland), (Z.lxor_lor hi lo Hland).
Qed.

Lemma byte_val_to_byte x : byte_val (to_byte x) = x mod 256.
Proof.
  unfold byte_val, to_byte.
  assert (0 <= x mod 256 < 256) by (apply Z.mod_pos_bound; lia).
  rewrite N_ascii_embedding by lia. lia.
Qed.

Lemma byte_val_range b : 0 <= byte_val b < 256.
Proof. unfold byte_val. pose proof (N_ascii_bounded b). lia. Qed.

Ltac arith := Z.div_mod_to_equations; lia.

Lemma lead_byte (t r : Z) (k : Z) :
  0 <= k -> t mod 2 ^ k = 0 -> 0 <= t < 256 -> 0 <= r < 2 ^ k -> t + r < 256 ->
  byte_val (to_byte (Z.lor t (byte_val (to_byte r)))) = t + r.
Proof.
  intros. rewrite !byte_val_to_byte.
  rewrite (Z.mod_small r 256) by lia.
  rewrite (lor_disjoint k) by lia. apply Z.mod_small. lia.
Qed.

Lemma cont_byte (r : Z) :
  byte_val (to_byte (Z.lor 0x80 (Z.land (byte_val (to_byte r)) 0x3F))) = 0x80 + r mod 64.
Proof.
  rewrite !byte_val_to_byte, land_0x3F.
  rewrite (lor_disjoint 6) by arith. arith.
Qed.

Lemma decode2 s0 b1 :
  0xC0 <= s0 <= 0xDF -> 0x80 <= b1 <= 0xBF ->
  Z.lor (Z.shiftl (Z.land s0 0x1F) 6) (Z.land b1 0x3F) = (s0 - 0xC0) * 64 + (b1 - 0x80).
Proof.
  intros. rewrite land_0x1F, land_0x3F, shiftl_6.
  rewrite (lor_disjoint 6) by arith. arith.
Qed.

Lemma decode3 s0 b1 b2 :
  0xE0 <= s0 <= 0xEF -> 0x80 <= b1 <= 0xBF -> 0x80 <= b2 <= 0xBF ->
  Z.lor (Z.lor (Z.shiftl (Z.land s0 0x0F) 12) (Z.shiftl (Z.land b1 0x3F) 6))
        (Z.land b2 0x3F)
  = (s0 - 0xE0) * 4096 + (b1 - 0x80) * 64 + (b2 - 0x80).
Proof.
  intros. rewrite land_0x0F, !land_0x3F, shiftl_6, shiftl_12.
  rewrite (lor_disjoint 12 (_ * 4096)) by arith.
  rewrite (lor_disjoint 6) by arith. arith.
Qed.

Lemma decode4 s0 b1 b2 b3 :
  0xF0 <= s0 <= 0xF7 -> 0x80 <= b1 <= 0xBF -> 0x80 <= b2 <= 0xBF ->
  0x80 <= b3 <= 0xBF ->
  Z.lor (Z.lor (Z.lor (Z.shiftl (Z.land s0 0x07) 18) (Z.shiftl (Z.land b1 0x3F) 12))
               (Z.shiftl (Z.land b2 0x3F) 6))
        (Z.land b3 0x3F)
  = (s0 - 0xF0) * 262144 + (b1 - 0x80) * 4096 + (b2 - 0x80) * 64 + (b3 - 0x80).
Proof.
  intros. rewrite land_0x07, !land_0x3F, shiftl_6, shiftl_12, shiftl_18.
  rewrite (lor_disjoint 18 (_ * 262144)) by arith.
  rewrite (lor_disjoint 12 (_ + _)) by arith.
  rewrite (lor_disjoint 6) by arith. arith.
Qed.

Lemma append_String a s t : String a s +:+ t = String a (s +:+ t).
Proof. reflexivity. Qed.

Lemma append_Empty t : EmptyString +:+ t = t.
Proof. reflexivity. Qed.

Lemma between_true lo hi x : lo <= x <= hi -> between lo hi x = true.
Proof. intros. unfold between. apply andb_true_intro. split; apply Z.leb_le; lia. Qed.

Ltac cmp_cases :=
  repeat match goal with
    | |- context [?a <? ?b] => destruct (Z.ltb_spec a b); try lia
    | |- context [?a <=? ?b] => destruct (Z.leb_spec a b); try lia
    | |- context [?a =? ?b] => destruct (Z.eqb_spec a b); try lia
    end.

(** The bytes [string(r)] is made of, by the size of [r]. *)
Lemma string_of_rune_1 r :
  0 <= r <= 0x7F -> string_of_rune r = String (to_byte r) EmptyString.
Proof. intros. unfold string_of_rune. cmp_cases; reflexivity. Qed.

Lemma string_of_rune_2 r :
  0x80 <= r <= 0x7FF ->
  string_of_rune r =
    String (to_byte (Z.lor 0xC0 (byte_val (to_byte (Z.shiftr r 6)))))
   (String (to_byte (Z.lor 0x80 (Z.land (byte_val (to_byte r)) 0x3F)))
    EmptyString).
Proof. intros. unfold string_of_rune. cmp_cases; reflexivity. Qed.

Lemma string_of_rune_3 r :
  0x800 <= r <= 0xFFFF -> ~ (surrogateMin <= r <= surrogateMax) ->
  string_of_rune r = encode3 r.
Proof.
  unfold surrogateMin, surrogateMax. intros.
  unfold string_of_rune, between, MaxRune, surrogateMin, surrogateMax.
  cmp_cases; reflexivity.
Qed.

Lemma string_of_rune_4 r :
  0x10000 <= r <= MaxRune -> string_of_rune r = encode4 r.
Proof.
  unfold MaxRune. intros.
  unfold string_of_rune, between, MaxRune, surrogateMin, surrogateMax.
  cmp_cases; reflexivity.
Qed.

Lemma first_multi3 s0 b1 :
  0xE0 <= s0 <= 0xEF -> 0x80 <= b1 <= 0xBF ->
  (s0 = 0xE0 -> 0xA0 <= b1) -> (s0 = 0xED -> b1 <= 0x9F) ->
  exists lo hi, first s0 = LeadMulti 3 lo hi /\ lo <= b1 <= hi.
Proof.
  intros. unfold first, locb, hicb.
  cmp_cases; do 2 eexists; (split; [reflexivity | lia]).
Qed.

Lemma first_multi4 s0 b1 :
  0xF0 <= s0 <= 0xF4 -> 0x80 <= b1 <= 0xBF ->
  (s0 = 0xF0 -> 0x90 <= b1) -> (s0 = 0xF4 -> b1 <= 0x8F) ->
  exists lo hi, first s0 = LeadMulti 4 lo hi /\ lo <= b1 <= hi.
Proof.
  intros. unfold first, locb, hicb.
  cmp_cases; do 2 eexists; (split; [reflexivity | lia]).
Qed.

(** Decoding undoes encoding: the first rune of [string(r)] followed by
    anything is [r], and its width is the length of [string(r)]. *)
Lemma DecodeRuneInString_string_of_rune r rest :
  ValidRune r ->
  DecodeRuneInString (string_of_rune r +:+ rest)
  = (r, String.length (string_of_rune r)).
Proof.
  unfold ValidRune, MaxRune. intros [Hr Hs].
  destruct (Z.le_gt_cases r 0x7F) as [H1 | H1];
    [| destruct (Z.le_gt_cases r 0x7FF) as [H2 | H2];
       [| destruct (Z.le_gt_cases r 0xFFFF) as [H3 | H3]]].
  - rewrite string_of_rune_1 by lia. rewrite ?append_String, append_Empty; cbn [String.length].
    unfold DecodeRuneInString. rewrite byte_val_to_byte.
    rewrite Z.mod_small by lia.
    unfold first. cmp_cases; reflexivity.
  - rewrite string_of_rune_2 by lia. rewrite ?append_String, append_Empty; cbn [String.length].
    unfold DecodeRuneInString.
    rewrite shiftr_6, (lead_byte 0xC0 _ 6), cont_byte by arith.
    assert (Hf : first (0xC0 + r / 64) = LeadMulti 2 locb hicb).
    { unfold first. assert (2 <= r / 64 <= 31) by arith. cmp_cases; reflexivity. }
    rewrite Hf. unfold locb, hicb.
    rewrite between_true by arith. cbn [negb Nat.leb].
    rewrite decode2 by arith. f_equal. arith.
  - unfold surrogateMin, surrogateMax in Hs.
    rewrite string_of_rune_3 by (unfold surrogateMin, surrogateMax; lia).
    unfold encode3. rewrite ?append_String, append_Empty; cbn [String.length].
    unfold DecodeRuneInString.
    rewrite shiftr_12, (lead_byte 0xE0 _ 5), !cont_byte, shiftr_6 by arith.
    destruct (first_multi3 (0xE0 + r / 4096) (0x80 + (r / 64) mod 64))
      as (lo & hi & Hf & Hb); try arith.
    rewrite Hf, (between_true lo hi) by exact Hb. unfold locb, hicb.
    rewrite between_true by arith. cbn [negb Nat.leb].
    rewrite decode3 by arith. f_equal. arith.
  - rewrite string_of_rune_4 by (unfold MaxRune; lia).
    unfold encode4. rewrite ?append_String, append_Empty; cbn [String.length].
    unfold DecodeRuneInString.
    rewrite shiftr_18, (lead_byte 0xF0 _ 4), !cont_byte, shiftr_6, shiftr_12 by arith.
    destruct (first_multi4 (0xF0 + r / 262144) (0x80 + (r / 4096) mod 64))
      as (lo & hi & Hf & Hb); try arith.
    rewrite Hf, (between_true lo hi) by exact Hb. unfold locb, hicb.
    rewrite !between_true by arith. cbn [negb Nat.leb].
    rewrite decode4 by arith. f_equal. arith.
Qed.


Lemma string_of_rune_nonempty r : exists c p, string_of_rune r = String c p.
Proof.
  unfold string_of_rune, encode3, encode4.
  repeat match goal with |- context [if ?b then _ else _] => destruct b end;
    eauto.
Qed.

Lemma append_nil_r s : s +:+ EmptyString = s.
Proof. induction s as [| c s IH]; [reflexivity |]. rewrite append_String, IH. reflexivity. Qed.

Lemma range_from_skip p rest :
  range_from (String.length p) (p +:+ rest) = range_from 0 rest.
Proof.
  induction p as [| c p IH]; [reflexivity |].
  rewrite append_String. cbn [String.length range_from]. exact IH.
Qed.

(** A [range] loop over [string(r)] followed by [rest] yields [r], then the
    runes of [rest]. *)
Lemma range_string_cons r rest :
  ValidRune r ->
  range_string (string_of_rune r +:+ rest) = r :: range_string rest.
Proof.
  intros Hr. pose proof (DecodeRuneInString_string_of_rune r rest Hr) as Hd.
  destruct (string_of_rune_nonempty r) as (c & p & Hs).
  rewrite Hs in *. rewrite append_String in *.
  unfold range_string. cbn [range_from]. rewrite Hd.
  cbn [String.length Nat.pred]. rewrite range_from_skip. reflexivity.
Qed.

Lemma range_string_of_runes rs :
  Forall ValidRune rs -> range_string (string_of_runes rs) = rs.
Proof.
  induction 1 as [| r rs Hr _ IH]; [reflexivity |].
  cbn [string_of_runes]. rewrite range_string_cons, IH by assumption. reflexivity.
Qed.




(** Only the encoding of [dash] starts with the byte ["-"]. *)
Lemma string_of_rune_no_dash r rest :
  ValidRune r -> r <> dash ->
  String.prefix "-" (string_of_rune r +:+ rest) = false.
Proof.
  intros Hr Hne. pose proof (DecodeRuneInString_string_of_rune r rest Hr) as Hd.
  destruct (string_of_rune_nonempty r) as (c & p & Hs).
  rewrite Hs in *. rewrite append_String in *.
  cbn [String.prefix]. destruct (ascii_dec "-" c) as [<- | _]; [| reflexivity].
  exfalso. apply Hne. vm_compute in Hd. injection Hd as <- _. reflexivity.
Qed.

End Utf8Facts.

(** ** The lexer *)

Lemma Tokenize_from_app (tokens : Tokens) (args : list string) :
  Tokenize_from tokens args = tokens ++ Tokenize args.
Proof.
  unfold Tokenize. revert tokens.
  induction args as [| arg rest IH]; intros tokens; cbn [Tokenize_from].
  - by rewrite app_nil_r.
  - rewrite (IH (tokens ++ tokenize_arg arg)), (IH ([] ++ tokenize_arg arg)).
    by rewrite app_nil_l, app_assoc.
Qed.

Lemma Tokenize_cons (arg : string) (rest : list string) :
  Tokenize (arg :: rest) = tokenize_arg arg ++ Tokenize rest.
Proof. unfold Tokenize at 1. cbn [Tokenize_from]. by rewrite Tokenize_from_app. Qed.

(** Every argument is tokenized on its own: no argument changes how another
    one is read. *)
Lemma Tokenize_app (xs ys : list string) :
  Tokenize (xs ++ ys) = Tokenize xs ++ Tokenize ys.
Proof.
  induction xs as [| x xs IH]; [reflexivity |].
  rewrite <- app_comm_cons, !Tokenize_cons, IH. by rewrite app_assoc.
Qed.

Lemma Tokenize_one (pre post : list string) (arg : string) :
  Tokenize (pre ++ [arg] ++ post) = Tokenize pre ++ tokenize_arg arg ++ Tokenize post.
Proof. by rewrite Tokenize_app, <- app_comm_cons, Tokenize_cons. Qed.

Lemma Index_None (s : string) (sep : ascii) :
  Index s sep = None → ∀ n, String.get n s ≠ Some sep.
Proof.
  induction s as [| c s IH]; intros H n; [by destruct n |].
  cbn [Index] in H. destruct (Ascii.eqb_spec c sep) as [-> | Hne]; [done |].
  destruct (Index s sep) eqn:Hi; [done |].
  destruct n as [| n]; cbn [String.get]; [congruence | by apply IH].
Qed.

Lemma Index_Some (s : string) (sep : ascii) (m : nat) :
  Index s sep = Some m →
  s = slice_to m s +:+ String sep (slice_from (m + 1) s)
  ∧ ∀ n, String.get n (slice_to m s) ≠ Some sep.
Proof.
  revert m. induction s as [| c s IH]; intros m H; [done |].
  cbn [Index] in H. destruct (Ascii.eqb_spec c sep) as [-> | Hne].
  - injection H as <-. split; [reflexivity | by intros []].
  - destruct (Index s sep) as [k |] eqn:Hi; [| done].
    injection H as <-. destruct (IH k eq_refl) as [Hs Hg].
    cbn [slice_to slice_from Nat.add]. split.
    + rewrite Utf8Facts.append_String. by rewrite <- Hs.
    + intros [| n]; cbn [String.get]; [congruence | apply Hg].
Qed.

Lemma HasPrefix_empty (s : string) : HasPrefix s "" = true.
Proof. by destruct s. Qed.

Lemma HasPrefix_String (c : ascii) (s p : string) :
  HasPrefix (String c s) (String c p) = HasPrefix s p.
Proof. unfold HasPrefix. cbn [String.prefix]. by destruct (ascii_dec c c). Qed.

Lemma tokenize_arg_long (rest : string) :
  tokenize_arg ("--" +:+ rest) =
  match Index rest "=" with
  | None => [mkToken TokenLong rest]
  | Some m => [mkToken TokenLong (slice_to m rest);
               mkToken TokenArg (slice_from (m + 1) rest)]
  end.
Proof.
  unfold tokenize_arg.
  change ("--" +:+ rest) with (String "-" (String "-" rest)).
  rewrite !HasPrefix_String, HasPrefix_empty. cbn [slice_from].
  unfold SplitN2. by destruct (Index rest "=").
Qed.

(** C5.  A raw argument that begins with ["--"] contributes exactly one
    long-flag token, named by what stands between the ["--"] and the first
    ["="] (all of the remainder when there is no ["="]); when there is an
    ["="], exactly one value token with everything after the first ["="]
    follows it at once, and otherwise no value token does.  The tokens of
    the arguments before and after are not affected. *)
Theorem Tokenize_long_flag (pre post : list string) (rest : string) :
  ∃ toks : Tokens,
    Tokenize (pre ++ ["--" +:+ rest] ++ post) = Tokenize pre ++ toks ++ Tokenize post
    ∧ (((∀ n, String.get n rest ≠ Some "="%char)
        ∧ toks = [mkToken TokenLong rest])
       ∨ (∃ name value : string,
            rest = name +:+ "=" +:+ value
            ∧ (∀ n, String.get n name ≠ Some "="%char)
            ∧ toks = [mkToken TokenLong name; mkToken TokenArg value])).
Proof.
  exists (tokenize_arg ("--" +:+ rest)). split; [apply Tokenize_one |].
  rewrite tokenize_arg_long. destruct (Index rest "=") as [m |] eqn:Hi.
  - right. destruct (Index_Some _ _ _ Hi) as [Hs Hg].
    exists (slice_to m rest), (slice_from (m + 1) rest). done.
  - left. split; [by apply Index_None | done].
Qed.

(** The first ["="] decides: the split of C5 is unique. *)
Lemma split_first_unique (name name' value value' : string) (sep : ascii) :
  name +:+ String sep value = name' +:+ String sep value' →
  (∀ n, String.get n name ≠ Some sep) → (∀ n, String.get n name' ≠ Some sep) →
  name = name' ∧ value = value'.
Proof.
  revert name'. induction name as [| c name IH]; intros [| c' name'] H Hn Hn'.
  - by injection H as ->.
  - injection H as <- _. by destruct (Hn' 0%nat).
  - injection H as -> _. by destruct (Hn 0%nat).
  - injection H as -> H.
    destruct (IH name' H (λ n, Hn (S n)) (λ n, Hn' (S n))) as [-> ->]. done.
Qed.

Lemma tokenize_arg_cluster (rs : list Utf8.rune) :
  Forall Utf8.ValidRune rs → Forall (λ r, r ≠ Utf8.dash) rs →
  tokenize_arg ("-" +:+ Utf8.string_of_runes rs)
  = map (λ r, mkToken TokenShort (Utf8.string_of_rune r)) rs.
Proof.
  intros Hv Hd. unfold tokenize_arg.
  assert (HasPrefix ("-" +:+ Utf8.string_of_runes rs) "--" = false) as ->.
  { unfold HasPrefix.
    change (String.prefix "--" ("-" +:+ Utf8.string_of_runes rs))
      with (String.prefix "-" (Utf8.string_of_runes rs)).
    destruct rs as [| r rs]; [reflexivity |].
    apply Utf8Facts.string_of_rune_no_dash;
      [by inversion Hv | by inversion Hd]. }
  change ("-" +:+ Utf8.string_of_runes rs) with (String "-" (Utf8.string_of_runes rs)).
  rewrite HasPrefix_String, HasPrefix_empty. cbn [slice_from].
  by rewrite Utf8Facts.range_string_of_runes.
Qed.

(** C6, as the code has it.  For characters [c1 .. cn] none of which is
    ["-"], the argument ["-"] followed by [c1 .. cn] is tokenized like the
    [n] arguments ["-c1"], ..., ["-cn"]: one short-flag token per character. *)
Theorem Tokenize_cluster (rs : list Utf8.rune) :
  Forall Utf8.ValidRune rs → Forall (λ r, r ≠ Utf8.dash) rs →
  Tokenize ["-" +:+ Utf8.string_of_runes rs]
  = Tokenize (map (λ r, "-" +:+ Utf8.string_of_rune r) rs).
Proof.
  intros Hv Hd. rewrite Tokenize_cons, app_nil_r, tokenize_arg_cluster by done.
  induction Hv as [| r rs Hr Hv IH]; [reflexivity |].
  inversion Hd as [| ? ? Hr' Hd']; subst.
  cbn [map]. rewrite Tokenize_cons, <- IH by done. f_equal.
  pose proof (tokenize_arg_cluster [r]) as H1. cbn [Utf8.string_of_runes map] in H1.
  rewrite Utf8Facts.append_nil_r in H1. rewrite H1; [done | by constructor ..].
Qed.

(** C8.  The argument ["-"] contributes no token at all: it is dropped from
    the token stream, wherever it stands. *)
Theorem Tokenize_single_dash (pre post : list string) :
  Tokenize ["-"] = []
  ∧ Tokenize (pre ++ ["-"] ++ post) = Tokenize pre ++ Tokenize post.
Proof. split; [reflexivity |]. by rewrite Tokenize_one. Qed.

(** C9.  The argument ["--"] is a long flag with the empty name, and
    ["--=v"] is that flag followed by the value ["v"].  ["--"] does not end
    the flags: the arguments after it are tokenized as they are anywhere
    else. *)
Theorem Tokenize_double_dash (pre post : list string) :
  Tokenize ["--"] = [mkToken TokenLong ""]
  ∧ Tokenize ["--=v"] = [mkToken TokenLong ""; mkToken TokenArg "v"]
  ∧ Tokenize (pre ++ ["--"] ++ post)
    = Tokenize pre ++ [mkToken TokenLong ""] ++ Tokenize post.
Proof. split; [reflexivity |]. split; [reflexivity |]. by rewrite Tokenize_one. Qed.

Example Tokenize_after_double_dash :
  Tokenize ["--"; "-x"; "--y"; "z"]
  = [mkToken TokenLong ""; mkToken TokenShort "x"; mkToken TokenLong "y";
     mkToken TokenArg "z"].
Proof. reflexivity. Qed.

(** C7.  Returning an end-of-stream token leaves the cursor as it is;
    returning any other token puts it in front; and so a token that [Next]
    consumed, returned, restores the sequence [Next] was called on. *)
Theorem Return_spec (t : Tokens) (tok : Token) :
  (Typ tok = TokenEOF → Return t tok = t)
  ∧ (Typ tok ≠ TokenEOF → Return t tok = tok :: t)
  ∧ (∀ rest, Next t = (tok, rest) → Typ tok ≠ TokenEOF → Return rest tok = t)
  ∧ (∀ rest, Next t = (tok, rest) → t = [] → Return rest tok = t).
Proof.
  unfold Return. repeat split.
  - by intros ->.
  - by destruct (Typ tok).
  - intros rest Hn Hne. destruct t as [| tok' t']; cbn [Next] in Hn.
    + injection Hn as <- <-. done.
    + injection Hn as <- <-. by destruct (Typ tok').
  - intros rest Hn ->. by injection Hn as <- <-.
Qed.

(** C6 as stated fails: with the characters ["a"] and ["-"], the argument
    ["-a-"] is two short flags, but of the arguments ["-a"] and ["--"] the
    second is a long flag with the empty name. *)
Lemma Tokenize_cluster_dash :
  Forall Utf8.ValidRune [0x61; 0x2D]%Z
  ∧ "-" +:+ Utf8.string_of_runes [0x61; 0x2D]%Z = "-a-"
  ∧ map (λ r, "-" +:+ Utf8.string_of_rune r) [0x61; 0x2D]%Z = ["-a"; "--"]
  ∧ Tokenize ["-a-"] = [mkToken TokenShort "a"; mkToken TokenShort "-"]
  ∧ Tokenize ["-a"; "--"] = [mkToken TokenShort "a"; mkToken TokenLong ""]
  ∧ Tokenize ["-" +:+ Utf8.string_of_runes [0x61; 0x2D]%Z]
    ≠ Tokenize (map (λ r, "-" +:+ Utf8.string_of_rune r) [0x61; 0x2D]%Z).
Proof.
  split; [repeat constructor; (unfold Utf8.MaxRune, Utf8.surrogateMin; lia) |].
  repeat split; [reflexivity .. |]. vm_compute. discriminate.
Qed.


(** ** More on the lexer *)

Module Utf8Decode.
Import Utf8 Utf8Facts.
Open Scope Z_scope.

Lemma between_bounds lo hi x : between lo hi x = true -> lo <= x <= hi.
Proof. unfold between. intros [H1 H2]%andb_prop. split; by apply Z.leb_le. Qed.

(** What a multi-byte entry of [first] says about the lead byte and the
    range of the second byte. *)
Lemma first_multi s0 sz lo hi :
  first s0 = LeadMulti sz lo hi ->
  0x80 <= lo /\ hi <= 0xBF
  /\ ((sz = 2%nat /\ 0xC2 <= s0 <= 0xDF)
      \/ (sz = 3%nat /\ 0xE0 <= s0 <= 0xEF
          /\ (s0 = 0xE0 -> 0xA0 <= lo) /\ (s0 = 0xED -> hi <= 0x9F))
      \/ (sz = 4%nat /\ 0xF0 <= s0 <= 0xF4
          /\ (s0 = 0xF0 -> 0x90 <= lo) /\ (s0 = 0xF4 -> hi <= 0x8F))).
Proof.
  unfold first, locb, hicb.
  repeat match goal with
    | |- context [?a <? ?b] => destruct (Z.ltb_spec a b)
    | |- context [?a =? ?b] => destruct (Z.eqb_spec a b)
    end; intros [= <- <- <-]; lia.
Qed.

Lemma RuneError_valid : ValidRune RuneError.
Proof. unfold ValidRune, RuneError, MaxRune, surrogateMin, surrogateMax. lia. Qed.

(** Whatever the bytes, the rune decoded is a Unicode scalar value, and on a
    non-empty string the width is between one and four bytes and no more
    than the string has. *)
Lemma DecodeRuneInString_valid (s : string) :
  ValidRune (DecodeRuneInString s).1
  /\ (s <> EmptyString ->
      (1 <= (DecodeRuneInString s).2 <= 4)%nat
      /\ ((DecodeRuneInString s).2 <= String.length s)%nat).
Proof.
  pose proof RuneError_valid as HE.
  destruct s as [| c0 s1]; [done |]. cbn [DecodeRuneInString String.length].
  pose proof (byte_val_range c0) as R0.
  destruct (first (byte_val c0)) as [| | sz lo hi] eqn:Hf.
  - split; [| intros _; cbn; lia].
    cbn [fst]. unfold first in Hf. revert Hf.
    destruct (Z.ltb_spec (byte_val c0) 0x80); [intros _ |].
    + unfold ValidRune, MaxRune, surrogateMin, surrogateMax. lia.
    + repeat match goal with
        | |- context [?a <? ?b] => destruct (Z.ltb_spec a b)
        | |- context [?a =? ?b] => destruct (Z.eqb_spec a b)
        end; discriminate.
  - split; [done | intros _; cbn; lia].
  - destruct (first_multi _ _ _ _ Hf) as (Hlo & Hhi & Hsz).
    destruct s1 as [| c1 s2]; [split; [done | intros _; cbn; lia] |].
    destruct (between lo hi (byte_val c1)) eqn:B1; cbn [negb];
      [| split; [done | intros _; cbn; lia]].
    apply between_bounds in B1.
    destruct Hsz as [[-> R] | [(-> & R & Ra & Rb) | (-> & R & Ra & Rb)]];
      cbn [Nat.leb].
    + split; [| intros _; cbn; lia]. cbn [fst].
      rewrite decode2 by lia.
      unfold ValidRune, MaxRune, surrogateMin, surrogateMax. lia.
    + destruct s2 as [| c2 s3]; [split; [done | intros _; cbn; lia] |].
      destruct (between locb hicb (byte_val c2)) eqn:B2; cbn [negb];
        [| split; [done | intros _; cbn; lia]].
      apply between_bounds in B2. unfold locb, hicb in B2.
      split; [| intros _; cbn; lia]. cbn [fst].
      rewrite decode3 by lia.
      unfold ValidRune, MaxRune, surrogateMin, surrogateMax. lia.
    + destruct s2 as [| c2 s3]; [split; [done | intros _; cbn; lia] |].
      destruct (between locb hicb (byte_val c2)) eqn:B2; cbn [negb];
        [| split; [done | intros _; cbn; lia]].
      apply between_bounds in B2. unfold locb, hicb in B2.
      destruct s3 as [| c3 s4]; [split; [done | intros _; cbn; lia] |].
      destruct (between locb hicb (byte_val c3)) eqn:B3; cbn [negb];
        [| split; [done | intros _; cbn; lia]].
      apply between_bounds in B3. unfold locb, hicb in B3.
      split; [| intros _; cbn; lia]. cbn [fst].
      rewrite decode4 by lia.
      unfold ValidRune, MaxRune, surrogateMin, surrogateMax. lia.
Qed.

Lemma range_from_valid (k : nat) (s : string) : Forall ValidRune (range_from k s).
Proof.
  revert k. induction s as [| c s IH]; intros k; [constructor |].
  cbn [range_from]. destruct k as [| k]; [| apply IH].
  destruct (DecodeRuneInString (String c s)) as [r w] eqn:Hd.
  constructor; [| apply IH].
  pose proof (DecodeRuneInString_valid (String c s)) as [Hv _].
  by rewrite Hd in Hv.
Qed.

(** The encoding of a scalar value has one to four bytes. *)
Lemma string_of_rune_length (r : rune) :
  (1 <= String.length (string_of_rune r) <= 4)%nat.
Proof.
  unfold string_of_rune, encode3, encode4.
  repeat match goal with |- context [if ?b then _ else _] => destruct b end;
    cbn; lia.
Qed.


End Utf8Decode.

Lemma Tokenize_flat_map (args : list string) :
  Tokenize args = flat_map tokenize_arg args.
Proof.
  induction args as [| arg rest IH]; [reflexivity |].
  by rewrite Tokenize_cons, IH.
Qed.

Lemma HasPrefix_double_dash (arg : string) :
  HasPrefix arg "--" = true → HasPrefix arg "-" = true.
Proof.
  unfold HasPrefix. destruct arg as [| c s]; [done |]. cbn [String.prefix].
  destruct (ascii_dec "-" c); [| done]. intros _. by destruct s.
Qed.

Lemma tokenize_arg_plain (arg : string) :
  HasPrefix arg "-" = false → tokenize_arg arg = [mkToken TokenArg arg].
Proof.
  intros H. unfold tokenize_arg. rewrite H.
  destruct (HasPrefix arg "--") eqn:H2; [| done].
  apply HasPrefix_double_dash in H2. congruence.
Qed.

(** The kinds of token an argument gives: the three forms of [Tokenize]. *)
Lemma tokenize_arg_cases (arg : string) :
  (∃ rest, arg = "--" +:+ rest
           ∧ tokenize_arg arg =
             match Index rest "=" with
             | None => [mkToken TokenLong rest]
             | Some m => [mkToken TokenLong (slice_to m rest);
                          mkToken TokenArg (slice_from (m + 1) rest)]
             end)
  ∨ (∃ rest, arg = "-" +:+ rest
             ∧ tokenize_arg arg =
               (λ r, mkToken TokenShort (Utf8.string_of_rune r))
                 <$> Utf8.range_string rest)
  ∨ (HasPrefix arg "-" = false ∧ tokenize_arg arg = [mkToken TokenArg arg]).
Proof.
  destruct (HasPrefix arg "-") eqn:H1; [| right; right; by rewrite tokenize_arg_plain].
  destruct arg as [| c s]; [done |].
  unfold HasPrefix in H1. cbn [String.prefix] in H1.
  destruct (ascii_dec "-" c) as [<- | _]; [| done]. clear H1.
  destruct (HasPrefix (String "-" s) "--") eqn:H2.
  - left. destruct s as [| c s]; [done |].
    unfold HasPrefix in H2. cbn [String.prefix] in H2.
    destruct (ascii_dec "-" "-"); [| done].
    destruct (ascii_dec "-" c) as [<- | _]; [| done].
    exists s. split; [done |]. apply tokenize_arg_long.
  - right. left. exists s. split; [done |].
    unfold tokenize_arg. rewrite H2.
    change (HasPrefix (String "-" s) "-") with (HasPrefix (String "-" s) (String "-" "")).
    by rewrite HasPrefix_String, HasPrefix_empty.
Qed.

Lemma tokenize_arg_no_EOF (arg : string) (tok : Token) :
  In tok (tokenize_arg arg) → Typ tok ≠ TokenEOF.
Proof.
  destruct (tokenize_arg_cases arg) as [(rest & _ & ->) | [(rest & _ & ->) | [_ ->]]].
  - destruct (Index rest "="); cbn; intros H; intuition (subst; done).
  - rewrite <- list_elem_of_In, list_elem_of_fmap. by intros (r & -> & _).
  - cbn. intros [<- | []]. done.
Qed.

Lemma Tokenize_no_EOF (args : list string) (tok : Token) :
  In tok (Tokenize args) → Typ tok ≠ TokenEOF.
Proof.
  rewrite Tokenize_flat_map, in_flat_map. intros (arg & _ & H).
  by apply tokenize_arg_no_EOF in H.
Qed.

(** X1.  Arguments are tokenized one by one and independently: the tokens of
    a concatenation are the tokens of its parts, in order. *)
Theorem Tokenize_concat (xs ys : list string) :
  Tokenize (xs ++ ys) = Tokenize xs ++ Tokenize ys.
Proof. apply Tokenize_app. Qed.

(** X2.  Arguments that do not begin with ["-"], the empty argument among
    them, pass through unchanged: one value token each, holding the whole
    argument. *)
Theorem Tokenize_plain (args : list string) :
  Forall (λ arg, HasPrefix arg "-" = false) args →
  Tokenize args = mkToken TokenArg <$> args.
Proof.
  induction 1 as [| arg rest H _ IH]; [reflexivity |].
  by rewrite Tokenize_cons, tokenize_arg_plain, IH.
Qed.

(** X3.  [Tokenize] never emits an end-of-stream token.  So at every position
    of a tokenized cursor, [Peek] shows end-of-stream exactly when nothing is
    left, [Peek] agrees with [Next], and returning what [Next] took restores
    the cursor. *)
Theorem Tokenize_cursor (args : list string) (n : nat) :
  let t := drop n (Tokenize args) in
  (∀ tok, In tok (Tokenize args) → IsEOF tok = false)
  ∧ (IsEOF (Peek t) = true ↔ t = [])
  ∧ Peek t = (Next t).1
  ∧ Return (Next t).2 (Next t).1 = t.
Proof.
  intros t.
  assert (∀ tok, In tok (Tokenize args) → IsEOF tok = false) as Hno.
  { intros tok H%Tokenize_no_EOF. unfold IsEOF. by destruct (Typ tok). }
  split; [exact Hno |].
  assert (∀ tok, In tok t → IsEOF tok = false) as Ht.
  { intros tok H. apply Hno. rewrite <- list_elem_of_In in *.
    subst t. by eapply subseteq_drop. }
  destruct t as [| tok rest]; [done |].
  pose proof (Ht tok (or_introl eq_refl)) as He.
  cbn [Peek Next fst snd]. split; [| split; [done |]].
  - rewrite He. split; done.
  - unfold Return, IsEOF in *. by rewrite He.
Qed.

Lemma In_Tokenize (args : list string) (tok : Token) :
  In tok (Tokenize args) ↔ ∃ arg, In arg args ∧ In tok (tokenize_arg arg).
Proof. by rewrite Tokenize_flat_map, in_flat_map. Qed.

(** X4.  The name of a long-flag token never contains ["="]: the name ends
    at the first ["="] of the argument. *)
Theorem Tokenize_long_names (args : list string) (tok : Token) :
  In tok (Tokenize args) → Typ tok = TokenLong →
  ∀ n, String.get n (Value tok) ≠ Some "="%char.
Proof.
  rewrite In_Tokenize. intros (arg & _ & Hin) Hty.
  destruct (tokenize_arg_cases arg) as [(rest & _ & E) | [(rest & _ & E) | [_ E]]];
    rewrite E in Hin; clear E.
  - destruct (Index rest "=") as [m |] eqn:Hi.
    + destruct Hin as [<- | [<- | []]]; [| done].
      by destruct (Index_Some _ _ _ Hi).
    + destruct Hin as [<- | []]. by apply Index_None.
  - rewrite <- list_elem_of_In, list_elem_of_fmap in Hin.
    destruct Hin as (r & -> & _). done.
  - destruct Hin as [<- | []]. done.
Qed.

(** X5.  The name of a short-flag token is always exactly one well-formed
    character, of one to four bytes, whatever bytes the argument held: a
    [range] loop over it yields that character and nothing else. *)
Theorem Tokenize_short_names (args : list string) (tok : Token) :
  In tok (Tokenize args) → Typ tok = TokenShort →
  ∃ r : Utf8.rune,
    Utf8.ValidRune r
    ∧ Value tok = Utf8.string_of_rune r
    ∧ Utf8.range_string (Value tok) = [r]
    ∧ (1 ≤ String.length (Value tok) ≤ 4)%nat.
Proof.
  rewrite In_Tokenize. intros (arg & _ & Hin) Hty.
  destruct (tokenize_arg_cases arg) as [(rest & _ & E) | [(rest & _ & E) | [_ E]]];
    rewrite E in Hin; clear E.
  - destruct (Index rest "="); cbn in Hin; intuition (subst; done).
  - rewrite <- list_elem_of_In, list_elem_of_fmap in Hin.
    destruct Hin as (r & -> & Hr). exists r.
    assert (Utf8.ValidRune r) as Hv.
    { pose proof (Utf8Decode.range_from_valid 0 rest) as Hall.
      rewrite Forall_forall in Hall. by apply Hall. }
    cbn [Value]. split; [done |]. split; [done |]. split.
    + rewrite <- (Utf8Facts.append_nil_r (Utf8.string_of_rune r)).
      by rewrite Utf8Facts.range_string_cons.
    + apply Utf8Decode.string_of_rune_length.
  - destruct Hin as [<- | []]. done.
Qed.

Lemma Index_absent (s : string) (sep : ascii) :
  (∀ n, String.get n s ≠ Some sep) → Index s sep = None.
Proof.
  induction s as [| c s IH]; intros H; [done |]. cbn [Index].
  destruct (Ascii.eqb_spec c sep) as [-> | _]; [by destruct (H 0%nat) |].
  rewrite IH; [done |]. intros n. apply (H (S n)).
Qed.

Lemma Index_first (name value : string) (sep : ascii) :
  (∀ n, String.get n name ≠ Some sep) →
  Index (name +:+ String sep value) sep = Some (String.length name)
  ∧ slice_to (String.length name) (name +:+ String sep value) = name
  ∧ slice_from (String.length name + 1) (name +:+ String sep value) = value.
Proof.
  induction name as [| c name IH]; intros H.
  - cbn [String.length]. change ("" +:+ String sep value) with (String sep value).
    cbn [Index slice_to slice_from Nat.add]. by rewrite Ascii.eqb_refl.
  - rewrite Utf8Facts.append_String. cbn [Index String.length slice_to slice_from Nat.add].
    destruct (Ascii.eqb_spec c sep) as [-> | _]; [by destruct (H 0%nat) |].
    destruct (IH (λ n, H (S n))) as (-> & -> & ->). done.
Qed.

Lemma tokenize_arg_inline (name value : string) :
  (∀ n, String.get n name ≠ Some "="%char) →
  tokenize_arg ("--" +:+ name +:+ "=" +:+ value)
  = [mkToken TokenLong name; mkToken TokenArg value].
Proof.
  intros H. rewrite tokenize_arg_long.
  change ("=" +:+ value) with (String "=" value).
  by destruct (Index_first name value "=" H) as (-> & -> & ->).
Qed.

(** X6.  Printing a token with [String] and tokenizing the print gives the
    token back, provided a value does not begin with ["-"], a long name
    contains no ["="], and a short name is one character other than
    ["-"]. *)
Theorem Token_String_Tokenize (tok : Token) :
  match Typ tok with
  | TokenArg => HasPrefix (Value tok) "-" = false
  | TokenLong => ∀ n, String.get n (Value tok) ≠ Some "="%char
  | TokenShort => ∃ r, Utf8.ValidRune r ∧ r ≠ Utf8.dash
                       ∧ Value tok = Utf8.string_of_rune r
  | TokenEOF => False
  end →
  Tokenize [Token_String tok] = [tok].
Proof.
  destruct tok as [ty v]. unfold Token_String. cbn [Typ Value].
  rewrite Tokenize_cons, app_nil_r. destruct ty.
  - intros (r & Hv & Hd & ->).
    pose proof (tokenize_arg_cluster [r]) as H. cbn [Utf8.string_of_runes map] in H.
    rewrite Utf8Facts.append_nil_r in H. apply H; by constructor.
  - intros H. rewrite tokenize_arg_long. by rewrite Index_absent.
  - apply tokenize_arg_plain.
  - done.
Qed.

(** X7.  A flag's value may be given inline or as the next argument: when
    the name has no ["="] and the value does not begin with ["-"],
    ["--name=value"] and ["--name" "value"] are the same tokens. *)
Theorem Tokenize_inline_value (name value : string) :
  (∀ n, String.get n name ≠ Some "="%char) →
  HasPrefix value "-" = false →
  Tokenize ["--" +:+ name +:+ "=" +:+ value] = Tokenize ["--" +:+ name; value]
  ∧ Tokenize ["--" +:+ name; value] = [mkToken TokenLong name; mkToken TokenArg value].
Proof.
  intros Hn Hv. rewrite !Tokenize_cons, app_nil_r.
  rewrite tokenize_arg_inline by done.
  rewrite tokenize_arg_long, Index_absent by done.
  by rewrite tokenize_arg_plain.
Qed.

(** An inline value that begins with ["-"] stays a value; given apart, it
    is read as flags. *)
Example Tokenize_inline_dash :
  Tokenize ["--level=-1"] = [mkToken TokenLong "level"; mkToken TokenArg "-1"]
  ∧ Tokenize ["--level"; "-1"] = [mkToken TokenLong "level"; mkToken TokenShort "1"].
Proof. split; reflexivity. Qed.

(** ** The Application driver *)

Ltac run := unfold mbind, M_bind, mret, M_ret, get, modify, panic in *.

Lemma rotate_from_last {A} (s : list A) (x : A) :
  rotate_from (length s) (s ++ [x]) = x :: s.
Proof. unfold rotate_from. by rewrite drop_app_length, take_app_length. Qed.

Lemma Command_eq (name help : string) f g st cmds order i ch n hl :
  Command name help (mkApp f g (mkCmdGroup st cmds order) i ch n hl)
  = Returns (length st)
      (mkApp f g (mkCmdGroup (st ++ [newCommand name help])
                             (<[name := length st]> cmds)
                             (order ++ [length st])) i ch n hl).
Proof. reflexivity. Qed.

Lemma get_cmd_last f g st c cmds order i ch n hl :
  get_cmd (length st) (mkApp f g (mkCmdGroup (st ++ [c]) cmds order) i ch n hl)
  = Returns c (mkApp f g (mkCmdGroup (st ++ [c]) cmds order) i ch n hl).
Proof.
  unfold get_cmd. run. cbn [app_cmdGroup cmd_store].
  by rewrite list_lookup_middle.
Qed.

(** A change through the pointer to the clause allocated last. *)
Lemma update_cmd_last (upd : CmdClause → CmdClause) f g st c cmds order i ch n hl :
  update_cmd (length st) upd (mkApp f g (mkCmdGroup (st ++ [c]) cmds order) i ch n hl)
  = Returns tt (mkApp f g (mkCmdGroup (st ++ [upd c]) cmds order) i ch n hl).
Proof.
  unfold update_cmd. run. rewrite get_cmd_last. unfold set_cmdGroup.
  cbn [app_cmdGroup cmd_store commands commandOrder app_flagGroup app_argGroup
       initialized commandHelp Name Help].
  by rewrite insert_app_r_alt, Nat.sub_diag.
Qed.

Lemma Arg_last (name help : string) f g st c cmds order i ch n hl :
  Arg (InCmd (length st)) name help
      (mkApp f g (mkCmdGroup (st ++ [c]) cmds order) i ch n hl)
  = Returns (InCmd (length st), length (args (cmd_argGroup c)))
      (mkApp f g
         (mkCmdGroup
            (st ++ [mkCmd (cmd_name c) (cmd_help c) (cmd_dispatch c) (cmd_flagGroup c)
                          (mkArgGroup (args (cmd_argGroup c)
                                         ++ [mkArg name help false false None None []]))])
            cmds order) i ch n hl).
Proof.
  unfold Arg, get_args, update_args. run.
  rewrite get_cmd_last. cbv beta iota. by rewrite update_cmd_last.
Qed.

Lemma update_arg_last (upd : ArgClause → ArgClause) (k : nat)
    f g st c cmds order i ch n hl :
  update_arg (InCmd (length st), k) upd
             (mkApp f g (mkCmdGroup (st ++ [c]) cmds order) i ch n hl)
  = Returns tt
      (mkApp f g
         (mkCmdGroup
            (st ++ [mkCmd (cmd_name c) (cmd_help c) (cmd_dispatch c) (cmd_flagGroup c)
                          (mkArgGroup (alter upd k (args (cmd_argGroup c))))])
            cmds order) i ch n hl).
Proof. unfold update_arg, update_args. cbn [fst snd]. by rewrite update_cmd_last. Qed.

Lemma install_help_eq (a : Application) :
  install_help a = Returns tt (with_help a).
Proof.
  destruct a as [f g [st cmds order] i h n hl].
  unfold install_help, arg_Required, arg_Dispatch, arg_String.
  unfold mbind, M_bind.
  rewrite Command_eq, Arg_last. cbn -[update_arg rotate_from].
  do 3 (rewrite update_arg_last; cbn -[update_arg rotate_from]).
  rewrite length_app, Nat.add_1_r. cbn -[rotate_from].
  by rewrite rotate_from_last.
Qed.

Section DriverFacts.

Variable flagGroup_init : flagGroup → option error.
Variable cmdGroup_init : cmdGroup → option error.
Variable argGroup_init : argGroup → option error.
Variable CmdClause_init : CmdClause → option error.
Variable range_commands : gmap string addr → list (string * addr).
Variable flagGroup_parse : Tokens → bool → M (Tokens * option error).
Variable argGroup_parse : Tokens → M (Tokens * option error).
Variable cmdGroup_parse : Tokens → M (list string * Tokens * option error).

#[local] Abbreviation a_init :=
  (init flagGroup_init cmdGroup_init argGroup_init CmdClause_init range_commands).
#[local] Abbreviation a_parse :=
  (parse flagGroup_parse argGroup_parse cmdGroup_parse).
#[local] Abbreviation a_Parse :=
  (Parse flagGroup_init cmdGroup_init argGroup_init CmdClause_init range_commands
         flagGroup_parse argGroup_parse cmdGroup_parse).

(** Initializing the commands changes nothing and never ends the process. *)
Lemma init_commands_returns (entries : list (string * addr)) (a : Application) :
  init_commands CmdClause_init entries a = Panics
  ∨ ∃ err, init_commands CmdClause_init entries a = Returns err a.
Proof.
  induction entries as [| [name cmd] rest IH]; cbn [init_commands]; run.
  - right. by eexists.
  - destruct (cmd_store (app_cmdGroup a) !! cmd) as [clause |]; [| by left].
    destruct (CmdClause_init clause); [right; by eexists | exact IH].
Qed.

(** What a successful first [init] leaves: the help command installed when
    there are commands, and the latch set. *)
Lemma init_success (a a' : Application) :
  initialized a = false →
  a_init a = Returns None a' →
  cmdGroup_have (app_cmdGroup a) && argGroup_have (app_argGroup a) = false
  ∧ a' = set_initialized true
           (if (0 <? size (commands (app_cmdGroup a)))%nat then with_help a else a).
Proof.
  intros Hi. unfold init. run. rewrite Hi.
  destruct (cmdGroup_have _ && argGroup_have _); [done |].
  set (a1 := if (0 <? size (commands (app_cmdGroup a)))%nat then with_help a else a).
  assert ((if (0 <? size (commands (app_cmdGroup a)))%nat
           then install_help else λ a0, Returns () a0) a = Returns tt a1) as ->.
  { subst a1. destruct (0 <? _)%nat; [apply install_help_eq | done]. }
  destruct (flagGroup_init _); [done |].
  destruct (cmdGroup_init _); [done |].
  destruct (argGroup_init _); [done |].
  destruct (init_commands_returns (range_commands (commands (app_cmdGroup a1))) a1)
    as [-> | [err ->]]; [done |].
  destruct err; [done |]. intros [= <-]. done.
Qed.

(** C4.  Once [init] has succeeded, calling it again returns nil and leaves
    the Application exactly as it is: nothing is registered a second time. *)
Theorem init_idempotent (a a' : Application) :
  a_init a = Returns None a' →
  a_init a' = Returns None a'.
Proof.
  intros H. assert (initialized a' = true) as Hi'.
  { destruct (initialized a) eqn:Hi.
    - unfold init in H. run. rewrite Hi in H. by injection H as <-.
    - destruct (init_success a a' Hi H) as [_ ->]. done. }
  unfold init. run. by rewrite Hi'.
Qed.

(** The latch alone decides: on an initialized Application [init] does
    nothing. *)
Lemma init_initialized (a : Application) :
  initialized a = true → a_init a = Returns None a.
Proof. intros Hi. unfold init. run. by rewrite Hi. Qed.

(** C3.  An Application not yet initialized that declares both a top-level
    argument and a top-level command is rejected: [init] returns an error
    and changes nothing, and so does [Parse], whatever the arguments, before
    any of them is tokenized or resolved. *)
Theorem init_rejects_mixed (a : Application) :
  initialized a = false →
  (0 < length (args (app_argGroup a)))%nat →
  (0 < size (commands (app_cmdGroup a)))%nat →
  ∃ err : error,
    a_init a = Returns (Some err) a
    ∧ ∀ argv, a_Parse argv a = Returns ("", Some err) a.
Proof.
  intros Hi Ha Hc.
  assert (cmdGroup_have (app_cmdGroup a) && argGroup_have (app_argGroup a) = true) as Hm.
  { unfold cmdGroup_have, argGroup_have.
    apply andb_true_intro. split; by apply Nat.ltb_lt. }
  assert (a_init a = Returns (Some "can't mix top-level Arg()s with Command()s") a) as Hinit.
  { unfold init. run. by rewrite Hi, Hm. }
  eexists. split; [exact Hinit |].
  intros argv. unfold Parse. unfold mbind at 1, M_bind at 1. by rewrite Hinit.
Qed.

(** C2.  When a first [init] succeeds on an Application with at least one
    command, the synthetic command ["help"] exists, with one argument,
    ["command"], which is required; it is the first in the command order,
    and the commands declared before follow it in the order they had. *)
Theorem init_installs_help (a a' : Application) :
  initialized a = false →
  (0 < size (commands (app_cmdGroup a)))%nat →
  a_init a = Returns None a' →
  ∃ (cmd : addr) (clause : CmdClause) (arg : ArgClause),
    commandOrder (app_cmdGroup a') = cmd :: commandOrder (app_cmdGroup a)
    ∧ cmd_store (app_cmdGroup a') = cmd_store (app_cmdGroup a) ++ [clause]
    ∧ cmd_store (app_cmdGroup a') !! cmd = Some clause
    ∧ commands (app_cmdGroup a') = <["help" := cmd]> (commands (app_cmdGroup a))
    ∧ cmd_name clause = "help"
    ∧ args (cmd_argGroup clause) = [arg]
    ∧ arg_name arg = "command"
    ∧ arg_required arg = true.
Proof.
  intros Hi Hc H. destruct (init_success a a' Hi H) as [_ ->].
  apply Nat.ltb_lt in Hc. rewrite Hc.
  exists (length (cmd_store (app_cmdGroup a))), help_command.
  eexists. cbn. rewrite list_lookup_middle by done. done.
Qed.

(** C10.  When [Parse] returns an error, the command it returns is the empty
    string. *)
Theorem Parse_error_no_command (argv : list string) (a a' : Application)
    (command : string) (err : error) :
  a_Parse argv a = Returns (command, Some err) a' → command = "".
Proof.
  unfold Parse. run.
  destruct (a_init a) as [[e |] a1 | |]; [by intros [= <- _ _] | | done ..].
  destruct (a_parse (Tokenize argv) a1) as [[[tokens cmd] [e |]] a2 | |];
    [by intros [= <- _ _] | | done ..].
  destruct (length tokens =? 1)%nat; [by intros [= <- _ _] |].
  destruct (0 <? length tokens)%nat; [by intros [= <- _ _] | done].
Qed.

(** C1.  When [init] has succeeded and the root flag group and then the
    root argument or command group have been resolved without error, and
    tokens remain, [Parse] returns the error "unexpected argument(s)" naming
    them, with the empty command. *)
Theorem Parse_trailing (argv : list string) (a a1 a2 : Application)
    (tokens : Tokens) (command : string) :
  a_init a = Returns None a1 →
  a_parse (Tokenize argv) a1 = Returns (tokens, command, None) a2 →
  tokens ≠ [] →
  a_Parse argv a
  = Returns ("", Some ((if (length tokens =? 1)%nat
                        then "unexpected argument '"
                        else "unexpected arguments '")
                       +:+ Tokens_String tokens +:+ "'")) a2.
Proof.
  intros Hinit Hparse Hne. unfold Parse. run. rewrite Hinit, Hparse.
  destruct (length tokens =? 1)%nat eqn:H1; [done |].
  destruct tokens; [done |]. done.
Qed.

(** With no token left, [Parse] returns the command and no error. *)
Lemma Parse_accepts (argv : list string) (a a1 a2 : Application) (command : string) :
  a_init a = Returns None a1 →
  a_parse (Tokenize argv) a1 = Returns ([], command, None) a2 →
  a_Parse argv a = Returns (command, None) a2.
Proof. intros Hinit Hparse. unfold Parse. run. by rewrite Hinit, Hparse. Qed.


(** The resolution error is handed on, with the empty command. *)
Lemma Parse_resolution_error (argv : list string) (a a1 a2 : Application)
    (tokens : Tokens) (command : string) (err : error) :
  a_init a = Returns None a1 →
  a_parse (Tokenize argv) a1 = Returns (tokens, command, Some err) a2 →
  a_Parse argv a = Returns ("", Some err) a2.
Proof. intros Hinit Hparse. unfold Parse. run. by rewrite Hinit, Hparse. Qed.

#[local] Abbreviation a_CommandLine_Parse :=
  (CommandLine_Parse flagGroup_init cmdGroup_init argGroup_init CmdClause_init
         range_commands flagGroup_parse argGroup_parse cmdGroup_parse).

(** How a first [init] can return: with the error of the mixed grammar and
    nothing changed; with the latch set; or with the error of a validator
    and the latch not set; in the last two cases with the help command
    installed when there are commands. *)
Lemma init_returns (a a' : Application) (r : option error) :
  initialized a = false →
  a_init a = Returns r a' →
  let a1 := if (0 <? size (commands (app_cmdGroup a)))%nat then with_help a else a in
  (cmdGroup_have (app_cmdGroup a) && argGroup_have (app_argGroup a) = true
   ∧ r = Some "can't mix top-level Arg()s with Command()s" ∧ a' = a)
  ∨ (cmdGroup_have (app_cmdGroup a) && argGroup_have (app_argGroup a) = false
     ∧ ((r = None ∧ a' = set_initialized true a1) ∨ (is_Some r ∧ a' = a1))).
Proof.
  intros Hi H a1. revert H. unfold init. run. rewrite Hi.
  destruct (cmdGroup_have _ && argGroup_have _); [intros [= <- <-]; by left |].
  right. split; [done |]. revert H.
  assert ((if (0 <? size (commands (app_cmdGroup a)))%nat
           then install_help else λ a0, Returns () a0) a = Returns tt a1) as ->.
  { subst a1. destruct (0 <? _)%nat; [apply install_help_eq | done]. }
  destruct (flagGroup_init _); [intros [= <- <-]; right; by eauto |].
  destruct (cmdGroup_init _); [intros [= <- <-]; right; by eauto |].
  destruct (argGroup_init _); [intros [= <- <-]; right; by eauto |].
  destruct (init_commands_returns (range_commands (commands (app_cmdGroup a1))) a1)
    as [-> | [err ->]]; [done |].
  destruct err; intros [= <- <-]; [right | left]; by eauto.
Qed.

(** [Parse] sees its arguments only through their tokens: two argument
    lists with the same tokens have the same outcome. *)
Lemma Parse_by_tokens (argv argv' : list string) (a : Application) :
  Tokenize argv = Tokenize argv' → a_Parse argv a = a_Parse argv' a.
Proof. intros H. unfold Parse. by rewrite H. Qed.

(** X9.  A lone ["-"] among the arguments is invisible to [Parse]: the
    outcome is that of the arguments without it. *)
Theorem Parse_single_dash (pre post : list string) (a : Application) :
  a_Parse (pre ++ ["-"] ++ post) a = a_Parse (pre ++ post) a.
Proof.
  apply Parse_by_tokens. by rewrite Tokenize_one, !Tokenize_app.
Qed.

(** X10.  For [Parse], a value given inline and the same value given as the
    next argument are one and the same, when the name has no ["="] and the
    value does not begin with ["-"]. *)
Theorem Parse_inline_value (pre post : list string) (name value : string)
    (a : Application) :
  (∀ n, String.get n name ≠ Some "="%char) →
  HasPrefix value "-" = false →
  a_Parse (pre ++ ["--" +:+ name +:+ "=" +:+ value] ++ post) a
  = a_Parse (pre ++ ["--" +:+ name; value] ++ post) a.
Proof.
  intros Hn Hv. apply Parse_by_tokens.
  rewrite Tokenize_one, !Tokenize_app, !Tokenize_cons.
  rewrite tokenize_arg_inline by done.
  rewrite tokenize_arg_long, Index_absent by done.
  by rewrite tokenize_arg_plain.
Qed.

(** X11.  When [Parse] returns no error, [init] had succeeded and the
    resolution had consumed every token: no argument is left unread. *)
Theorem Parse_success (argv : list string) (a a' : Application) (command : string) :
  a_Parse argv a = Returns (command, None) a' →
  ∃ a1, a_init a = Returns None a1
        ∧ a_parse (Tokenize argv) a1 = Returns ([], command, None) a'.
Proof.
  unfold Parse. run.
  destruct (a_init a) as [[e |] a1 | |] eqn:Hinit; [done | | done ..].
  destruct (a_parse (Tokenize argv) a1) as [[[tokens cmd] [e |]] a2 | |] eqn:Hparse;
    [done | | done ..].
  destruct tokens as [| t1 [| t2 tokens]]; cbn [length Nat.eqb Nat.ltb Nat.leb];
    [| done ..].
  intros [= <- <-]. by exists a1.
Qed.

(** X12.  The latch is set only by success.  When a first [init] with
    commands fails in a validator, the help command stays installed and the
    latch stays unset, so the next [init] installs a second help command. *)
Theorem init_failure_registers_again (a a1 a2 : Application) (e : error)
    (r : option error) :
  initialized a = false →
  (0 < size (commands (app_cmdGroup a)))%nat →
  length (args (app_argGroup a)) = 0%nat →
  a_init a = Returns (Some e) a1 →
  a_init a1 = Returns r a2 →
  initialized a1 = false
  ∧ cmd_store (app_cmdGroup a1) = cmd_store (app_cmdGroup a) ++ [help_command]
  ∧ cmd_store (app_cmdGroup a2)
    = cmd_store (app_cmdGroup a) ++ [help_command; help_command]
  ∧ commandOrder (app_cmdGroup a2)
    = S (length (cmd_store (app_cmdGroup a)))
        :: length (cmd_store (app_cmdGroup a)) :: commandOrder (app_cmdGroup a).
Proof.
  intros Hi Hc Ha H1 H2.
  assert (argGroup_have (app_argGroup a) = false) as Hna
    by (unfold argGroup_have; by rewrite Ha).
  pose proof Hc as Hpos. apply Nat.ltb_lt in Hc.
  destruct (init_returns a a1 _ Hi H1) as [(Hm & _) | (_ & [[? _] | [_ ->]])].
  - by rewrite Hna, andb_false_r in Hm.
  - done.
  - rewrite Hc in *. clear H1.
    assert (initialized (with_help a) = false) as Hi1 by done.
    split; [done |]. split; [done |].
    assert ((0 <? size (commands (app_cmdGroup (with_help a))))%nat = true) as Hc1.
    { apply Nat.ltb_lt. cbn. rewrite map_size_insert.
      destruct (_ !! _); unfold id; lia. }
    destruct (init_returns (with_help a) a2 _ Hi1 H2)
      as [(Hm & _) | (_ & [[_ ->] | [_ ->]])].
    + change (app_argGroup (with_help a)) with (app_argGroup a) in Hm.
      by rewrite Hna, andb_false_r in Hm.
    + rewrite Hc1. cbn. rewrite length_app, Nat.add_1_r, <- app_assoc. done.
    + rewrite Hc1. cbn. rewrite length_app, Nat.add_1_r, <- app_assoc. done.
Qed.

(** X13.  Without commands [init] installs nothing: it returns with the
    Application unchanged, but for the latch when it succeeds. *)
Theorem init_without_commands (a a' : Application) (r : option error) :
  size (commands (app_cmdGroup a)) = 0%nat →
  a_init a = Returns r a' →
  (r = None ∧ a' = set_initialized true a) ∨ (is_Some r ∧ a' = a).
Proof.
  intros Hc H. destruct (initialized a) eqn:Hi.
  - rewrite init_initialized in H by done. injection H as <- <-. left.
    split; [done |]. destruct a. cbn in Hi. by subst.
  - destruct (init_returns a a' _ Hi H) as [(_ & -> & ->) | (_ & Hr)].
    + right. by eauto.
    + rewrite Hc in Hr. cbn in Hr. destruct Hr as [[-> ->] | [? ->]]; by eauto.
Qed.

(** X14.  The package-level [Parse] returns only when [Application.Parse]
    returned no error, and then never with an empty selection if commands
    are declared. *)
Theorem CommandLine_Parse_returns (argv : list string) (a a' : Application)
    (selected : string) :
  a_CommandLine_Parse argv a = Returns selected a' →
  a_Parse argv a = Returns (selected, None) a'
  ∧ (selected ≠ "" ∨ size (commands (app_cmdGroup a')) = 0%nat).
Proof.
  unfold CommandLine_Parse, Fatalf, exit. run.
  destruct (a_Parse argv a) as [[sel [e |]] a1 | |]; [done | | done ..].
  destruct (String.eqb_spec sel "") as [-> | Hne]; cbn [andb].
  - destruct (0 <? size (commands (app_cmdGroup a1)))%nat eqn:Hs; [done |].
    intros [= <- <-]. split; [done |]. right. apply Nat.ltb_ge in Hs. lia.
  - intros [= <- <-]. split; [done |]. by left.
Qed.

(** X15.  The package-level [Parse] ends the process with status 1 on every
    error of [Application.Parse]; in particular when [init] fails, and when
    tokens are left after a resolution without error. *)
Theorem CommandLine_Parse_fatal (argv : list string) (a a1 a2 : Application) :
  (∀ command err, a_Parse argv a = Returns (command, Some err) a1 →
                  a_CommandLine_Parse argv a = Exits 1)
  ∧ (∀ err, a_init a = Returns (Some err) a1 →
            a_CommandLine_Parse argv a = Exits 1)
  ∧ (∀ tokens command,
       a_init a = Returns None a1 →
       a_parse (Tokenize argv) a1 = Returns (tokens, command, None) a2 →
       tokens ≠ [] →
       a_CommandLine_Parse argv a = Exits 1).
Proof.
  split; [| split].
  - intros command err H. unfold CommandLine_Parse, Fatalf, exit. run. by rewrite H.
  - intros err H. unfold CommandLine_Parse, Parse, Fatalf, exit. run. by rewrite H.
  - intros tokens command H1 H2 Hne.
    unfold CommandLine_Parse, Parse, Fatalf, exit. run. rewrite H1, H2.
    destruct tokens as [| t1 [| t2 tokens]]; done.
Qed.

(** X16.  Help mode follows the text of the first token, not its kind: with
    ["help"], ["--help"] or ["--help=..."] as first argument the flags are
    resolved in help mode, as if the resolver were always asked for it. *)
Theorem parse_help_mode (first : string) (rest : list string) (a : Application) :
  first = "help" ∨ first = "--help" ∨ (∃ v, first = "--help=" +:+ v) →
  a_parse (Tokenize (first :: rest)) a
  = parse (λ tokens _, flagGroup_parse tokens true) argGroup_parse cmdGroup_parse
          (Tokenize (first :: rest)) a.
Proof.
  intros H. rewrite Tokenize_cons.
  assert (∃ ty more, tokenize_arg first = mkToken ty "help" :: more) as (ty & more & ->).
  { destruct H as [-> | [-> | [v ->]]]; [by eexists _, _ ..|].
    change ("--help=" +:+ v) with ("--" +:+ "help" +:+ "=" +:+ v).
    rewrite tokenize_arg_inline by (apply Index_None; reflexivity). by eexists _, _. }
  reflexivity.
Qed.

End DriverFacts.

(** ** The driver at work *)

Lemma Parse_trailing_witness :
  kingpin_init chat = Returns None chat_ready
  ∧ kingpin_parse (Tokenize scenario3) chat_ready
    = Returns ([mkToken TokenArg "hello"], "post", None) chat_resolved
  ∧ [mkToken TokenArg "hello"] ≠ []
  ∧ kingpin_Parse scenario3 chat
    = Returns ("", Some "unexpected argument 'Tokens{hello}'") chat_resolved.
Proof.
  assert (kingpin_init chat = Returns None chat_ready) as H1
    by (vm_compute; reflexivity).
  assert (kingpin_parse (Tokenize scenario3) chat_ready
          = Returns ([mkToken TokenArg "hello"], "post", None) chat_resolved) as H2
    by (vm_compute; reflexivity).
  assert ([mkToken TokenArg "hello"] ≠ []) as H3 by discriminate.
  split; [exact H1 |]. split; [exact H2 |]. split; [exact H3 |].
  exact (Parse_trailing flagGroup_init_spec cmdGroup_init_spec argGroup_init_spec CmdClause_init_spec
           map_to_list
           (flagGroup_parse_at no_hooks Root) (argGroup_parse_at no_hooks Root)
           (cmdGroup_parse_root no_hooks)
           scenario3 chat chat_ready chat_resolved _ _ H1 H2 H3).
Defined.

Lemma Parse_error_no_command_witness :
  kingpin_Parse scenario3 chat
  = Returns ("", Some "unexpected argument 'Tokens{hello}'") chat_resolved
  ∧ "" = "".
Proof.
  assert (kingpin_Parse scenario3 chat
          = Returns ("", Some "unexpected argument 'Tokens{hello}'") chat_resolved) as H
    by (vm_compute; reflexivity).
  split; [exact H |].
  exact (Parse_error_no_command flagGroup_init_spec cmdGroup_init_spec argGroup_init_spec CmdClause_init_spec
           map_to_list
           (flagGroup_parse_at no_hooks Root) (argGroup_parse_at no_hooks Root)
           (cmdGroup_parse_root no_hooks)
           scenario3 chat chat_resolved _ _ H).
Defined.

Lemma init_installs_help_witness :
  initialized chat = false
  ∧ (0 < size (commands (app_cmdGroup chat)))%nat
  ∧ kingpin_init chat = Returns None chat_ready
  ∧ ∃ (cmd : addr) (clause : CmdClause) (arg : ArgClause),
      commandOrder (app_cmdGroup chat_ready) = cmd :: commandOrder (app_cmdGroup chat)
      ∧ cmd_store (app_cmdGroup chat_ready) = cmd_store (app_cmdGroup chat) ++ [clause]
      ∧ cmd_store (app_cmdGroup chat_ready) !! cmd = Some clause
      ∧ commands (app_cmdGroup chat_ready)
        = <["help" := cmd]> (commands (app_cmdGroup chat))
      ∧ cmd_name clause = "help"
      ∧ args (cmd_argGroup clause) = [arg]
      ∧ arg_name arg = "command"
      ∧ arg_required arg = true.
Proof.
  assert (initialized chat = false) as H1 by (vm_compute; reflexivity).
  assert (0 < size (commands (app_cmdGroup chat)))%nat as H2 by (vm_compute; lia).
  assert (kingpin_init chat = Returns None chat_ready) as H3
    by (vm_compute; reflexivity).
  split; [exact H1 |]. split; [exact H2 |]. split; [exact H3 |].
  exact (init_installs_help flagGroup_init_spec cmdGroup_init_spec argGroup_init_spec CmdClause_init_spec
           map_to_list
           chat chat_ready H1 H2 H3).
Defined.

Lemma init_rejects_mixed_witness :
  initialized mixed = false
  ∧ (0 < length (args (app_argGroup mixed)))%nat
  ∧ (0 < size (commands (app_cmdGroup mixed)))%nat
  ∧ ∃ err : error,
      kingpin_init mixed = Returns (Some err) mixed
      ∧ ∀ argv, kingpin_Parse argv mixed = Returns ("", Some err) mixed.
Proof.
  assert (initialized mixed = false) as H1 by (vm_compute; reflexivity).
  assert (0 < length (args (app_argGroup mixed)))%nat as H2 by (vm_compute; lia).
  assert (0 < size (commands (app_cmdGroup mixed)))%nat as H3 by (vm_compute; lia).
  split; [exact H1 |]. split; [exact H2 |]. split; [exact H3 |].
  exact (init_rejects_mixed flagGroup_init_spec cmdGroup_init_spec argGroup_init_spec CmdClause_init_spec
           map_to_list
           (flagGroup_parse_at no_hooks Root) (argGroup_parse_at no_hooks Root)
           (cmdGroup_parse_root no_hooks)
           mixed H1 H2 H3).
Defined.

Lemma init_idempotent_witness :
  kingpin_init chat = Returns None chat_ready
  ∧ kingpin_init chat_ready = Returns None chat_ready.
Proof.
  assert (kingpin_init chat = Returns None chat_ready) as H
    by (vm_compute; reflexivity).
  split; [exact H |].
  exact (init_idempotent flagGroup_init_spec cmdGroup_init_spec argGroup_init_spec CmdClause_init_spec
           map_to_list
           chat chat_ready H).
Defined.

Lemma Tokenize_cluster_witness :
  Forall Utf8.ValidRune [0x61; 0x62; 0x63]%Z
  ∧ Forall (λ r, r ≠ Utf8.dash) [0x61; 0x62; 0x63]%Z
  ∧ Tokenize ["-abc"] = Tokenize ["-a"; "-b"; "-c"].
Proof.
  assert (Forall Utf8.ValidRune [0x61; 0x62; 0x63]%Z) as H1
    by (repeat constructor; unfold Utf8.MaxRune, Utf8.surrogateMin; lia).
  assert (Forall (λ r, r ≠ Utf8.dash) [0x61; 0x62; 0x63]%Z) as H2
    by (repeat constructor; unfold Utf8.dash; lia).
  split; [exact H1 |]. split; [exact H2 |].
  exact (Tokenize_cluster _ H1 H2).
Defined.

Lemma Return_spec_witness :
  Return [mkToken TokenArg "b"] TokenEOFMarker = [mkToken TokenArg "b"]
  ∧ Return [mkToken TokenArg "b"] (mkToken TokenShort "a")
    = [mkToken TokenShort "a"; mkToken TokenArg "b"]
  ∧ Return (Next [mkToken TokenShort "a"; mkToken TokenArg "b"]).2
           (Next [mkToken TokenShort "a"; mkToken TokenArg "b"]).1
    = [mkToken TokenShort "a"; mkToken TokenArg "b"]
  ∧ Return (Next []).2 (Next []).1 = [].
Proof.
  destruct (Return_spec [mkToken TokenArg "b"] TokenEOFMarker) as (He & _).
  destruct (Return_spec [mkToken TokenArg "b"] (mkToken TokenShort "a"))
    as (_ & Hp & _).
  destruct (Return_spec [mkToken TokenShort "a"; mkToken TokenArg "b"]
                        (mkToken TokenShort "a")) as (_ & _ & Hn & _).
  destruct (Return_spec [] TokenEOFMarker) as (_ & _ & _ & Hz).
  split; [exact (He eq_refl) |].
  split; [apply Hp; discriminate |].
  split; [apply Hn; [reflexivity | discriminate] |].
  apply Hz; reflexivity.
Defined.

(** The scenarios of section 8 of the spec. *)
Example scenario1 :
  ∃ a, kingpin_Parse ["--name"; "Bob"; "Alice"] greeter = Returns ("", None) a
       ∧ flag_target <$> flag_store (app_flagGroup a) = [None; Some "Bob"]
       ∧ arg_target <$> args (app_argGroup a) = [["Alice"]].
Proof.
  eexists. split; [vm_compute; reflexivity |].
  split; vm_compute; reflexivity.
Qed.

Example scenario2 :
  ∃ a, kingpin_Parse ["Alice"] greeter
       = Returns ("", Some "required flag --name not provided") a.
Proof. eexists. vm_compute. reflexivity. Qed.

Example scenario4 : kingpin_Parse ["help"; "register"] chat = Exits 0.
Proof. vm_compute. reflexivity. Qed.

Example scenario5 :
  ∃ a, kingpin_Parse ["-x"] chat = Returns ("", Some "unknown flag '-x'") a.
Proof. eexists. vm_compute. reflexivity. Qed.

Example Parse_selects_command :
  ∃ a, kingpin_Parse ["post"; "-a"; "general"] chat = Returns ("post", None) a.
Proof. eexists. vm_compute. reflexivity. Qed.

(** ** The properties above at work *)

Lemma Tokenize_plain_witness :
  Forall (λ arg, HasPrefix arg "-" = false) ["Alice"; ""; "x=y"]
  ∧ Tokenize ["Alice"; ""; "x=y"]
    = [mkToken TokenArg "Alice"; mkToken TokenArg ""; mkToken TokenArg "x=y"].
Proof.
  assert (Forall (λ arg, HasPrefix arg "-" = false) ["Alice"; ""; "x=y"]) as H
    by (repeat constructor).
  split; [exact H |]. exact (Tokenize_plain _ H).
Defined.

Lemma Tokenize_long_names_witness :
  In (mkToken TokenLong "name") (Tokenize ["--name=Bob=by"])
  ∧ Typ (mkToken TokenLong "name") = TokenLong
  ∧ ∀ n, String.get n "name" ≠ Some "="%char.
Proof.
  assert (In (mkToken TokenLong "name") (Tokenize ["--name=Bob=by"])) as H
    by (vm_compute; tauto).
  split; [exact H |]. split; [reflexivity |].
  exact (Tokenize_long_names _ _ H eq_refl).
Defined.

Lemma Tokenize_short_names_witness :
  In (mkToken TokenShort "b") (Tokenize ["-ab"; "x"])
  ∧ Typ (mkToken TokenShort "b") = TokenShort
  ∧ ∃ r : Utf8.rune,
      Utf8.ValidRune r
      ∧ "b" = Utf8.string_of_rune r
      ∧ Utf8.range_string "b" = [r]
      ∧ (1 ≤ String.length "b" ≤ 4)%nat.
Proof.
  assert (In (mkToken TokenShort "b") (Tokenize ["-ab"; "x"])) as H
    by (vm_compute; tauto).
  split; [exact H |]. split; [reflexivity |].
  exact (Tokenize_short_names _ _ H eq_refl).
Defined.

Lemma Token_String_Tokenize_witness :
  (∀ n, String.get n "name" ≠ Some "="%char)
  ∧ Tokenize [Token_String (mkToken TokenLong "name")] = [mkToken TokenLong "name"].
Proof.
  assert (∀ n, String.get n "name" ≠ Some "="%char) as H
    by (apply Index_None; reflexivity).
  split; [exact H |].
  exact (Token_String_Tokenize (mkToken TokenLong "name") H).
Defined.

Lemma Tokenize_inline_value_witness :
  (∀ n, String.get n "name" ≠ Some "="%char)
  ∧ HasPrefix "Bob" "-" = false
  ∧ Tokenize ["--name=Bob"] = Tokenize ["--name"; "Bob"]
  ∧ Tokenize ["--name"; "Bob"] = [mkToken TokenLong "name"; mkToken TokenArg "Bob"].
Proof.
  assert (∀ n, String.get n "name" ≠ Some "="%char) as H1
    by (apply Index_None; reflexivity).
  assert (HasPrefix "Bob" "-" = false) as H2 by reflexivity.
  split; [exact H1 |]. split; [exact H2 |].
  exact (Tokenize_inline_value "name" "Bob" H1 H2).
Defined.


Lemma Parse_inline_value_witness :
  (∀ n, String.get n "name" ≠ Some "="%char)
  ∧ HasPrefix "Bob" "-" = false
  ∧ kingpin_Parse ([] ++ ["--name=Bob"] ++ ["Alice"]) greeter
    = kingpin_Parse ([] ++ ["--name"; "Bob"] ++ ["Alice"]) greeter.
Proof.
  assert (∀ n, String.get n "name" ≠ Some "="%char) as H1
    by (apply Index_None; reflexivity).
  assert (HasPrefix "Bob" "-" = false) as H2 by reflexivity.
  split; [exact H1 |]. split; [exact H2 |].
  exact (Parse_inline_value
           flagGroup_init_spec cmdGroup_init_spec argGroup_init_spec CmdClause_init_spec
           map_to_list
           (flagGroup_parse_at no_hooks Root) (argGroup_parse_at no_hooks Root)
           (cmdGroup_parse_root no_hooks)
           [] ["Alice"] "name" "Bob" greeter H1 H2).
Defined.

Lemma Parse_success_witness :
  kingpin_Parse ["post"; "-a"; "general"] chat = Returns ("post", None) chat_posted
  ∧ ∃ a1, kingpin_init chat = Returns None a1
          ∧ kingpin_parse (Tokenize ["post"; "-a"; "general"]) a1
            = Returns ([], "post", None) chat_posted.
Proof.
  assert (kingpin_Parse ["post"; "-a"; "general"] chat
          = Returns ("post", None) chat_posted) as H by (vm_compute; reflexivity).
  split; [exact H |].
  exact (Parse_success
           flagGroup_init_spec cmdGroup_init_spec argGroup_init_spec CmdClause_init_spec
           map_to_list
           (flagGroup_parse_at no_hooks Root) (argGroup_parse_at no_hooks Root)
           (cmdGroup_parse_root no_hooks)
           ["post"; "-a"; "general"] chat chat_posted "post" H).
Defined.

Lemma init_failure_registers_again_witness :
  initialized broken = false
  ∧ (0 < size (commands (app_cmdGroup broken)))%nat
  ∧ length (args (app_argGroup broken)) = 0%nat
  ∧ kingpin_init broken
    = Returns (Some "required argument 'second' after an optional one") broken_once
  ∧ kingpin_init broken_once
    = Returns (Some "required argument 'second' after an optional one") broken_twice
  ∧ initialized broken_once = false
  ∧ cmd_store (app_cmdGroup broken_once)
    = cmd_store (app_cmdGroup broken) ++ [help_command]
  ∧ cmd_store (app_cmdGroup broken_twice)
    = cmd_store (app_cmdGroup broken) ++ [help_command; help_command]
  ∧ commandOrder (app_cmdGroup broken_twice)
    = S (length (cmd_store (app_cmdGroup broken)))
        :: length (cmd_store (app_cmdGroup broken))
        :: commandOrder (app_cmdGroup broken).
Proof.
  assert (initialized broken = false) as H1 by (vm_compute; reflexivity).
  assert (0 < size (commands (app_cmdGroup broken)))%nat as H2 by (vm_compute; lia).
  assert (length (args (app_argGroup broken)) = 0%nat) as H3
    by (vm_compute; reflexivity).
  assert (kingpin_init broken
          = Returns (Some "required argument 'second' after an optional one")
                    broken_once) as H4 by (vm_compute; reflexivity).
  assert (kingpin_init broken_once
          = Returns (Some "required argument 'second' after an optional one")
                    broken_twice) as H5 by (vm_compute; reflexivity).
  split; [exact H1 |]. split; [exact H2 |]. split; [exact H3 |].
  split; [exact H4 |]. split; [exact H5 |].
  exact (init_failure_registers_again
           flagGroup_init_spec cmdGroup_init_spec argGroup_init_spec CmdClause_init_spec
           map_to_list broken broken_once broken_twice _ _ H1 H2 H3 H4 H5).
Defined.

Lemma init_without_commands_witness :
  size (commands (app_cmdGroup greeter)) = 0%nat
  ∧ kingpin_init greeter = Returns None (set_initialized true greeter)
  ∧ ((@None error = None ∧ set_initialized true greeter = set_initialized true greeter)
     ∨ (is_Some (@None error) ∧ set_initialized true greeter = greeter)).
Proof.
  assert (size (commands (app_cmdGroup greeter)) = 0%nat) as H1
    by (vm_compute; reflexivity).
  assert (kingpin_init greeter = Returns None (set_initialized true greeter)) as H2
    by (vm_compute; reflexivity).
  split; [exact H1 |]. split; [exact H2 |].
  exact (init_without_commands
           flagGroup_init_spec cmdGroup_init_spec argGroup_init_spec CmdClause_init_spec
           map_to_list greeter _ _ H1 H2).
Defined.

Lemma CommandLine_Parse_returns_witness :
  kingpin_CommandLine_Parse ["post"; "-a"; "general"] chat = Returns "post" chat_posted
  ∧ kingpin_Parse ["post"; "-a"; "general"] chat = Returns ("post", None) chat_posted
  ∧ ("post" ≠ "" ∨ size (commands (app_cmdGroup chat_posted)) = 0%nat).
Proof.
  assert (kingpin_CommandLine_Parse ["post"; "-a"; "general"] chat
          = Returns "post" chat_posted) as H by (vm_compute; reflexivity).
  split; [exact H |].
  exact (CommandLine_Parse_returns
           flagGroup_init_spec cmdGroup_init_spec argGroup_init_spec CmdClause_init_spec
           map_to_list
           (flagGroup_parse_at no_hooks Root) (argGroup_parse_at no_hooks Root)
           (cmdGroup_parse_root no_hooks)
           ["post"; "-a"; "general"] chat chat_posted "post" H).
Defined.

Lemma CommandLine_Parse_fatal_witness :
  kingpin_init chat = Returns None chat_ready
  ∧ kingpin_parse (Tokenize scenario3) chat_ready
    = Returns ([mkToken TokenArg "hello"], "post", None) chat_resolved
  ∧ [mkToken TokenArg "hello"] ≠ []
  ∧ kingpin_CommandLine_Parse scenario3 chat = Exits 1.
Proof.
  assert (kingpin_init chat = Returns None chat_ready) as H1
    by (vm_compute; reflexivity).
  assert (kingpin_parse (Tokenize scenario3) chat_ready
          = Returns ([mkToken TokenArg "hello"], "post", None) chat_resolved) as H2
    by (vm_compute; reflexivity).
  assert ([mkToken TokenArg "hello"] ≠ []) as H3 by discriminate.
  split; [exact H1 |]. split; [exact H2 |]. split; [exact H3 |].
  exact (proj2 (proj2 (CommandLine_Parse_fatal
           flagGroup_init_spec cmdGroup_init_spec argGroup_init_spec CmdClause_init_spec
           map_to_list
           (flagGroup_parse_at no_hooks Root) (argGroup_parse_at no_hooks Root)
           (cmdGroup_parse_root no_hooks)
           scenario3 chat chat_ready chat_resolved)) _ _ H1 H2 H3).
Defined.

Lemma parse_help_mode_witness :
  ("--help" = "help" ∨ "--help" = "--help" ∨ (∃ v, "--help" = "--help=" +:+ v))
  ∧ kingpin_parse (Tokenize ["--help"; "post"]) chat_ready
    = parse (λ tokens _, flagGroup_parse_at no_hooks Root tokens true)
            (argGroup_parse_at no_hooks Root) (cmdGroup_parse_root no_hooks)
            (Tokenize ["--help"; "post"]) chat_ready.
Proof.
  assert ("--help" = "help" ∨ "--help" = "--help" ∨ (∃ v, "--help" = "--help=" +:+ v))
    as H by (right; left; reflexivity).
  split; [exact H |].
  exact (parse_help_mode
           (flagGroup_parse_at no_hooks Root) (argGroup_parse_at no_hooks Root)
           (cmdGroup_parse_root no_hooks) "--help" ["post"] chat_ready H).
Defined.

(** ** The usage line *)

Lemma string_app_assoc (a b c : string) : (a +:+ b) +:+ c = a +:+ b +:+ c.
Proof.
  induction a as [| x a IH]; [reflexivity |].
  rewrite !Utf8Facts.append_String. by rewrite IH.
Qed.

Lemma Join_cons (e e' : string) (s : list string) (sep : string) :
  Join (e :: e' :: s) sep = e +:+ sep +:+ Join (e' :: s) sep.
Proof. reflexivity. Qed.

Lemma Join_snoc_extend (s : list string) (last x sep : string) :
  Join (s ++ [last +:+ x]) sep = Join (s ++ [last]) sep +:+ x.
Proof.
  induction s as [| e s IH]; [reflexivity |].
  destruct s as [| e' s].
  - cbn [app]. rewrite !Join_cons. cbn [Join]. by rewrite !string_app_assoc.
  - cbn [app] in *. rewrite !Join_cons, IH. by rewrite !string_app_assoc.
Qed.

(** Extending the last element extends the joined string. *)
Lemma Join_extend_last (s : list string) (last x sep : string) :
  s !! (length s - 1)%nat = Some last →
  Join (<[(length s - 1)%nat := last +:+ x]> s) sep = Join s sep +:+ x.
Proof.
  destruct s as [| l s _] using rev_ind; [done |].
  rewrite length_app. cbn [length].
  replace (length s + 1 - 1)%nat with (length s) by lia.
  rewrite list_lookup_middle by done. intros [= ->].
  rewrite insert_app_r_alt, Nat.sub_diag by done. cbn [insert list_insert].
  apply Join_snoc_extend.
Qed.

Lemma args_loop_eq (l : list ArgClause) (s : list string) (depth : nat) :
  args_loop l s depth
  = (s ++ ((λ arg, (if arg_required arg then "" else "[")
                     +:+ "<" +:+ arg_name arg +:+ ">") <$> l),
     (depth + length (filter (λ arg, arg_required arg = false) l))%nat).
Proof.
  revert s depth. induction l as [| arg l IH]; intros s depth; cbn [args_loop].
  - by rewrite app_nil_r, Nat.add_0_r.
  - destruct (arg_required arg) eqn:Hr; cbn [negb]; rewrite IH, <- app_assoc.
    + rewrite filter_cons_False by (by rewrite Hr). by rewrite fmap_cons, Hr.
    + rewrite filter_cons_True by done. rewrite fmap_cons, Hr. cbn [length].
      f_equal. lia.
Qed.

(** X17.  [formatArgsAndFlags] never panics, and the usage line it makes is
    the name, the flag summary and the arguments separated by single spaces,
    each optional argument opened by ["["], with all the closing ["]"] at
    the very end, one for each optional argument. *)
Theorem formatArgsAndFlags_shape (formatPlaceHolder : FlagClause → string)
    (name : string) (a : argGroup) (flags : flagGroup) :
  formatArgsAndFlags formatPlaceHolder name a flags
  = Some (Join ([name] ++ gatherFlagSummary formatPlaceHolder flags
                  ++ ((λ arg, (if arg_required arg then "" else "[")
                                +:+ "<" +:+ arg_name arg +:+ ">") <$> args a))
               " "
          +:+ Repeat "]" (length (filter (λ arg, arg_required arg = false) (args a)))).
Proof.
  unfold formatArgsAndFlags. rewrite args_loop_eq. cbn [Nat.add].
  set (s := ([name] ++ gatherFlagSummary formatPlaceHolder flags) ++ _).
  destruct (s !! (length s - 1)%nat) as [last |] eqn:Hl.
  - rewrite (Join_extend_last s last _ " " Hl). subst s. by rewrite <- app_assoc.
  - apply lookup_ge_None in Hl. subst s. cbn [app length] in Hl. lia.
Qed.

Example formatArgsAndFlags_ex :
  formatArgsAndFlags (λ _, "VALUE") "post"
    (mkArgGroup [mkArg "text" "" true false None None [];
                 mkArg "image" "" false false None None [];
                 mkArg "more" "" false false None None []])
    (mkFlagGroup [mkFlag "channel" "" (Some "a") true None None (Some stringValue) None;
                  mkFlag "debug" "" None false None None (Some boolValue) None]
                 {["channel" := 0%nat; "debug" := 1%nat]} {["a" := 0%nat]} [0%nat; 1%nat])
  = Some "post --channel=VALUE [<flags>] <text> [<image> [<more>]]".
Proof. vm_compute. reflexivity. Qed.
